(** * React18Features: the catalog source, the suspending resource and the
      query controller of [src/App.tsx]

    The development follows the file top-down:
    - [JsString]: the string operations of the JavaScript runtime that the
      program calls ([toLowerCase], [trim], [includes], [String(n)]);
    - [Catalog]: [ALL_PRODUCTS] and the filter of [fetchProducts] and of
      [ProductsPanel];
    - [Number]: the binary64 arithmetic of [randomDelay];
    - [Runtime]: promises, timers, the promise job queue and
      [createResource] over an explicit store;
    - [Ui]: [ErrorBoundary], [Suspense], [ProductsPanel], [App] and
      [handleChange] as a labelled transition system. *)

From Stdlib Require Import ZArith NArith List String Ascii Lia DecimalString
  SpecFloat.
From stdpp Require Import base numbers list.

Set Default Proof Using "Type".

(** ** JavaScript strings *)

Module JsString.

(** A JavaScript string is a sequence of UTF-16 code units. *)
Definition jsstring := list N.

(** A source literal made of Basic Latin characters only. *)
Definition lit (s : string) : jsstring :=
  List.map N_of_ascii (list_ascii_of_string s).

(** U+2011 NON-BREAKING HYPHEN, which two of the catalog titles contain. *)
Definition NBHYPHEN : N := 0x2011%N.

(** [WhiteSpace] and [LineTerminator] of ECMAScript, the code units that
    [String.prototype.trim] strips. *)
Definition is_space (c : N) : bool :=
  ((9 <=? c) && (c <=? 13) || (c =? 32) || (c =? 160) || (c =? 0x1680)
   || (0x2000 <=? c) && (c <=? 0x200A)
   || (c =? 0x2028) || (c =? 0x2029) || (c =? 0x202F) || (c =? 0x205F)
   || (c =? 0x3000) || (c =? 0xFEFF))%N.

Fixpoint trimStart (s : jsstring) : jsstring :=
  match s with
  | c :: s' => if is_space c then trimStart s' else s
  | [] => []
  end.

Definition trimEnd (s : jsstring) : jsstring := rev (trimStart (rev s)).

Definition trim (s : jsstring) : jsstring := trimEnd (trimStart s).

(** Lower-casing of one code unit: the Basic Latin capitals and the Latin-1
    capitals (U+00C0..U+00DE without the multiplication sign U+00D7) move up
    by 32, the Kelvin sign U+212A becomes [k], every other code unit is kept.
    This is [toLowerCase] of ECMAScript on every string over Basic Latin,
    Latin-1 and the Kelvin sign, which covers the program text.  The Kelvin
    sign is the one character outside Basic Latin whose lower case lies
    within Basic Latin; the lower case of any other character that
    ECMAScript changes has a code unit outside Basic Latin, as the character
    itself has here.  Titles and brands consist of Basic Latin and U+2011,
    so for every query the two filters below keep the records that the
    filters of the program keep.  The statements about all queries use of
    [toLowerCase] only that it works code unit by code unit and neither
    makes nor removes white space. *)
Definition lower_unit (c : N) : N :=
  (if (65 <=? c) && (c <=? 90) then c + 32
   else if (192 <=? c) && (c <=? 222) && negb (c =? 215) then c + 32
   else if c =? 0x212A then 107
   else c)%N.

Definition toLowerCase (s : jsstring) : jsstring := List.map lower_unit s.

(** [s.startsWith(q)] at position 0, the inner loop of the substring search. *)
Fixpoint startsWith (s q : jsstring) : bool :=
  match q, s with
  | [], _ => true
  | _ :: _, [] => false
  | c :: q', d :: s' => (c =? d)%N && startsWith s' q'
  end.

(** [s.includes(q)]: [q] occurs in [s] at some index. *)
Fixpoint includes (s q : jsstring) : bool :=
  startsWith s q ||
  match s with
  | [] => false
  | _ :: s' => includes s' q
  end.

(** Decimal digits of a natural number, most significant first; [fuel]
    bounds the number of digits. *)
Fixpoint digits (fuel : nat) (n : N) (acc : jsstring) : jsstring :=
  match fuel with
  | O => acc
  | S fuel' =>
      let acc' := (48 + n mod 10)%N :: acc in
      if (n <? 10)%N then acc' else digits fuel' (n / 10)%N acc'
  end.

(** [String(n)] and the number-to-string conversion of [s + n], for a
    non-negative integer [n]. *)
Definition String_of (n : nat) : jsstring := digits (S n) (N.of_nat n) [].

End JsString.

Import JsString.

(** ** The simulated API: [ALL_PRODUCTS] and the filter *)

Module Catalog.

Record Product := mkProduct {
  id : jsstring;
  title : jsstring;
  brand : jsstring;
  price : Z
}.

Definition TITLES : list jsstring :=
  [ lit "Espresso Machine";
    lit "Induction Cooktop";
    lit "Chef Knife";
    lit "Cast" ++ NBHYPHEN :: lit "Iron Skillet";
    lit "Bakeware Set";
    lit "Range Hood";
    lit "Dishwasher";
    lit "Steam Oven";
    lit "Combi Oven";
    lit "Sous" ++ NBHYPHEN :: lit "vide Stick" ].

Definition BRANDS : list jsstring :=
  [ lit "Aran"; lit "Bertazzoni"; lit "Caesarstone"; lit "Radianz" ].

(** An array read [a[k]].  The program reads at [i % 10] and [i % 4] only,
    always within range; out of range JavaScript yields [undefined], which a
    string concatenation prints as such. *)
Definition at_index (a : list jsstring) (k : nat) : jsstring :=
  nth k a (lit "undefined").

(** The callback of [Array.from({ length: 250 }).map((_, i) => ...)]. *)
Definition product_at (i : nat) : Product :=
  {| id := String_of (i + 1);
     title := at_index TITLES (i mod 10) ++ lit " " ++ String_of (i + 1);
     brand := at_index BRANDS (i mod 4);
     price := 99 + Z.of_nat ((i * 17) mod 900) |}.

Definition ALL_PRODUCTS : list Product := List.map product_at (seq 0 250).

(* The 250 records stay folded in proofs by rewriting; [vm_compute] still
   evaluates them. *)
Arguments ALL_PRODUCTS : simpl never.
Global Opaque ALL_PRODUCTS.

(** The predicate shared by both filters of the program:
    [p.title.toLowerCase().includes(q) || p.brand.toLowerCase().includes(q)]. *)
Definition matches (q : jsstring) (p : Product) : bool :=
  includes (toLowerCase (title p)) q || includes (toLowerCase (brand p)) q.

(** [const q = query.toLowerCase().trim()] of [fetchProducts]. *)
Definition normalize (query : jsstring) : jsstring := trim (toLowerCase query).

(** The body of the timer callback of [fetchProducts], run over the array
    that the binding [ALL_PRODUCTS] holds at that moment. *)
Definition filtered (products : list Product) (q : jsstring) : list Product :=
  List.filter (matches q) products.

(** The [useMemo] body of [ProductsPanel], without the busy wait. *)
Definition visible (data : list Product) (deferredQuery : jsstring) : list Product :=
  List.filter (matches (toLowerCase deferredQuery)) data.

End Catalog.

Import Catalog.

(** ** The simulated latency: Numbers and [randomDelay] *)

Module Number.

(** A JavaScript Number is an IEEE 754 binary64 value; the arithmetic is
    that of the Standard Library's specification of floating point. *)
Definition prec : Z := 53.
Definition emax : Z := 1024.

(** The Number of an integer literal. *)
Definition of_Z (z : Z) : spec_float := binary_normalize prec emax z 0 false.

Definition add : spec_float → spec_float → spec_float := SFadd prec emax.
Definition sub : spec_float → spec_float → spec_float := SFsub prec emax.
Definition mul : spec_float → spec_float → spec_float := SFmul prec emax.
Definition div : spec_float → spec_float → spec_float := SFdiv prec emax.

(** The Number of an integer that [Math.floor] found, with the sign of the
    argument when it is zero. *)
Definition integral (s : bool) (n : Z) : spec_float :=
  match n with Z0 => S754_zero s | _ => of_Z n end.

(** [Math.floor]: a finite Number with a negative exponent loses the bits
    below the point, rounding down; every other Number is returned as it
    is. *)
Definition floor (x : spec_float) : spec_float :=
  match x with
  | S754_finite s m e =>
      if (0 <=? e)%Z then x
      else integral s (Z.shiftr (cond_Zopp s (Zpos m)) (- e))
  | _ => x
  end.

(** What [Math.random()] may return: a Number with positive sign, greater
    than or equal to zero and less than one. *)
Definition unit_interval (u : spec_float) : bool :=
  match u with
  | S754_zero false => true
  | S754_finite false m e => bounded prec emax m e && SFltb u (of_Z 1)
  | _ => false
  end.

End Number.

(** [randomDelay(min, max)], given the Number that [Math.random()]
    returned. *)
Definition randomDelay (random min max : spec_float) : spec_float :=
  Number.add
    (Number.floor (Number.mul random
                     (Number.add (Number.sub max min) (Number.of_Z 1))))
    min.

(** ** Promises, timers, the job queue and [createResource] *)

Module Runtime.

(** The values that flow through promises and [throw]. *)
Inductive value :=
| VUndefined
| VNull
| VBool (b : bool)
| VNumber (z : Z)
| VString (s : jsstring)
| VError (message : jsstring)
| VProducts (l : list Product)
| VPromise (p : nat).

(** The result of evaluating a call: it returns or it throws. *)
Inductive completion (A : Type) :=
| Return (a : A)
| Throw (v : value).
Arguments Return {A} a.
Arguments Throw {A} v.

(** How a promise settled. *)
Inductive settlement :=
| Fulfilled (v : value)
| Rejected (reason : value).

(** Who holds the resolving functions of a promise: the caller of
    [new Promise], the timer callback of [fetchProducts] (for the normalized
    query [q]), or the [then] of [createResource] (the suspender of resource
    [r]). *)
Inductive control :=
| ByCaller
| ByTimer (q : jsstring)
| ByReaction (r : nat).

(** A promise: unsettled ([None]) or settled, and the resources whose pair of
    [then] callbacks waits on it. *)
Record Promise := mkPromise {
  settled : option settlement;
  reactions : list nat;
  origin : control
}.

(** [let status: "pending" | "success" | "error"]. *)
Inductive Status := pending | success | error.

Global Instance Status_eq_dec : EqDecision Status.
Proof. solve_decision. Defined.

(** The closure of one [createResource] call: its two variables, the
    [suspender], and (for the statements only) the promise it was given. *)
Record Resource := mkResource {
  status : Status;
  result : value;
  suspender : nat;
  awaited : nat
}.

(** The closure passed to [setTimeout]: the [resolve] of promise [resolves]
    and the captured [q]. *)
Record Timer := mkTimer {
  resolves : nat;
  needle : jsstring
}.

(** A queued promise reaction: the callbacks of resource [r], to be called
    with the settlement [s]. *)
Inductive Job := Reaction (r : nat) (s : settlement).

(** Everything the program has allocated, by address (the index in the
    list): the promises, the closures of [createResource], the timers that
    are set, the queue of promise jobs (oldest first), and the array bound to
    [ALL_PRODUCTS]. *)
Record Store := mkStore {
  promises : list Promise;
  resources : list Resource;
  timers : list Timer;
  jobs : list Job;
  products : list Product
}.

Definition with_promises (f : list Promise → list Promise) (σ : Store) : Store :=
  mkStore (f (promises σ)) (resources σ) (timers σ) (jobs σ) (products σ).
Definition with_resources (f : list Resource → list Resource) (σ : Store) : Store :=
  mkStore (promises σ) (f (resources σ)) (timers σ) (jobs σ) (products σ).
Definition with_timers (f : list Timer → list Timer) (σ : Store) : Store :=
  mkStore (promises σ) (resources σ) (f (timers σ)) (jobs σ) (products σ).
Definition with_jobs (f : list Job → list Job) (σ : Store) : Store :=
  mkStore (promises σ) (resources σ) (timers σ) (f (jobs σ)) (products σ).

(** The module has been loaded: [ALL_PRODUCTS] is bound, nothing else exists. *)
Definition loaded : Store := mkStore [] [] [] [] ALL_PRODUCTS.

(** A new, unsettled promise. *)
Definition alloc_promise (o : control) (σ : Store) : nat * Store :=
  (length (promises σ), with_promises (λ ps, ps ++ [mkPromise None [] o]) σ).

(** Calling [resolve] or [reject] of promise [p]: the first call settles it
    and queues one job per waiting reaction, later calls do nothing. *)
Definition settle (p : nat) (s : settlement) (σ : Store) : Store :=
  match promises σ !! p with
  | Some P =>
      match settled P with
      | None =>
          with_jobs (λ js, js ++ List.map (λ r, Reaction r s) (reactions P))
            (with_promises (λ ps, <[p := mkPromise (Some s) [] (origin P)]> ps) σ)
      | Some _ => σ
      end
  | None => σ
  end.

(** [promise.then(onFulfilled, onRejected)] with the two callbacks of
    resource [r]: they wait on an unsettled promise and are queued at once on
    a settled one. *)
Definition then_ (p r : nat) (σ : Store) : Store :=
  match promises σ !! p with
  | Some P =>
      match settled P with
      | None =>
          with_promises
            (λ ps, <[p := mkPromise None (reactions P ++ [r]) (origin P)]> ps) σ
      | Some s => with_jobs (λ js, js ++ [Reaction r s]) σ
      end
  | None => σ
  end.

(** [createResource(promise)]: the two variables start as ["pending"] and
    [undefined], and [promise.then] takes the two callbacks and returns the
    suspender. *)
Definition createResource (p : nat) (σ : Store) : nat * Store :=
  let r := length (resources σ) in
  let '(sp, σ1) := alloc_promise (ByReaction r) σ in
  let σ2 := with_resources (λ rs, rs ++ [mkResource pending VUndefined sp p]) σ1 in
  (r, then_ p r σ2).

(** [read()] of resource [r]. *)
Definition read (r : nat) (σ : Store) : option (completion value) :=
  match resources σ !! r with
  | Some R =>
      Some match status R with
           | pending => Throw (VPromise (suspender R))
           | error => Throw (result R)
           | success => Return (result R)
           end
  | None => None
  end.

(** [fetchProducts(query)]: the promise is created and the timer is set; the
    delay drawn by [randomDelay] only decides when the timer fires, which is
    left to the run. *)
Definition fetchProducts (query : jsstring) (σ : Store) : nat * Store :=
  let q := normalize query in
  let '(p, σ1) := alloc_promise (ByTimer q) σ in
  (p, with_timers (λ ts, ts ++ [mkTimer p q]) σ1).

(** The timer callback: [resolve(ALL_PRODUCTS.filter(...))]. *)
Definition fire (t : nat) (σ : Store) : option Store :=
  match timers σ !! t with
  | Some T =>
      Some (settle (resolves T)
              (Fulfilled (VProducts (filtered (products σ) (needle T))))
              (with_timers (delete t) σ))
  | None => None
  end.

(** One of the two callbacks of [createResource], applied to the cell. *)
Definition callback (s : settlement) (R : Resource) : Resource :=
  match s with
  | Fulfilled r => mkResource success r (suspender R) (awaited R)
  | Rejected e => mkResource error e (suspender R) (awaited R)
  end.

(** The oldest queued job runs; the callback returns [undefined], with which
    the suspender is then resolved. *)
Definition run_job (σ : Store) : option Store :=
  match jobs σ with
  | Reaction r s :: rest =>
      match resources σ !! r with
      | Some R =>
          Some (settle (suspender R) (Fulfilled VUndefined)
                  (with_jobs (λ _, rest)
                     (with_resources (λ rs, <[r := callback s R]> rs) σ)))
      | None => None
      end
  | [] => None
  end.

Definition is_promise (v : value) : bool :=
  match v with VPromise _ => true | _ => false end.

Definition by_caller (p : nat) (σ : Store) : bool :=
  match promises σ !! p with
  | Some P => match origin P with ByCaller => true | _ => false end
  | None => false
  end.

(** What can happen to a store.  [Resolve] and [Reject] are calls of the
    resolving functions of a promise made by [NewPromise], the only ones a
    caller holds; resolving with a promise (which would adopt its state) is
    not part of the model. *)
Inductive action :=
| NewPromise
| Resolve (p : nat) (v : value)
| Reject (p : nat) (reason : value)
| FetchProducts (query : jsstring)
| CreateResource (p : nat)
| Fire (t : nat)
| RunJob.

Definition step (a : action) (σ : Store) : option Store :=
  match a with
  | NewPromise => Some (snd (alloc_promise ByCaller σ))
  | Resolve p v =>
      if by_caller p σ && negb (is_promise v) then Some (settle p (Fulfilled v) σ)
      else None
  | Reject p e =>
      if by_caller p σ then Some (settle p (Rejected e) σ) else None
  | FetchProducts query => Some (snd (fetchProducts query σ))
  | CreateResource p =>
      if decide (p < length (promises σ)) then Some (snd (createResource p σ))
      else None
  | Fire t => fire t σ
  | RunJob => run_job σ
  end.

Fixpoint run (l : list action) (σ : Store) : option Store :=
  match l with
  | [] => Some σ
  | a :: l' => match step a σ with Some σ' => run l' σ' | None => None end
  end.

(** The stores the program can be in. *)
Definition reachable (σ : Store) : Prop := ∃ l, run l loaded = Some σ.

Definition promise_state (p : nat) (σ : Store) : option (option settlement) :=
  settled <$> promises σ !! p.

End Runtime.

Import Runtime.

(** ** The components: [ErrorBoundary], [Suspense], [ProductsPanel], [App] *)

Module Ui.

(** What the region below the search box shows. *)
Inductive Panel :=
| Blank                                   (* nothing rendered yet *)
| Skeleton (n : nat)                      (* [ProductsFallback], [n] placeholders *)
| Grid (cards : list Product) (deferredQuery : jsstring)
                                          (* the cards, or "No results" when empty *)
| ErrorPanel (failure : value)            (* the fallback with "Try again" *)
| Unmounted (failure : value).            (* an error no boundary handled *)

(** The state of the mounted tree: the hooks of [App] ([query], [resource],
    the transition scheduled by [startTransition] and not yet committed),
    [this.state.error] of the [ErrorBoundary], the value held by
    [useDeferredValue], the panel on screen, and the log of the resources
    whose [read()] was called, oldest first. *)
Record App := mkApp {
  store : Store;
  query : jsstring;
  resource : nat;
  transition : option nat;
  boundary : value;
  deferredQuery : jsstring;
  panel : Panel;
  reads : list nat
}.


(** JavaScript truthiness, for [if (this.state.error)]. *)
Definition truthy (v : value) : bool :=
  match v with
  | VUndefined | VNull => false
  | VBool b => b
  | VNumber z => negb (z =? 0)%Z
  | VString s => match s with [] => false | _ => true end
  | VError _ | VProducts _ | VPromise _ => true
  end.

(** [ProductsPanel], given what [resource.read()] did and the deferred
    query.  A value without [filter] makes [data.filter] throw. *)
Definition ProductsPanel (data : completion value) (deferred : jsstring)
  : completion Panel :=
  match data with
  | Return (VProducts l) => Return (Grid (visible l deferred) deferred)
  | Return _ => Throw (VError (lit "TypeError"))
  | Throw x => Throw x
  end.

(** [<Suspense fallback={<ProductsFallback />}>]: a thrown promise shows the
    nine placeholders, anything else passes through. *)
Definition Suspense (children : completion Panel) : completion Panel :=
  match children with
  | Throw (VPromise _) => Return (Skeleton 9)
  | c => c
  end.

(** [ErrorBoundary]: with a truthy [state.error] the fallback is rendered and
    the children are not; otherwise the children are, and what they throw goes
    through [getDerivedStateFromError] into the state, with which [render]
    runs again.  When that second [render] returns the children once more
    (a falsy error), they throw again and no boundary is left. *)
Definition ErrorBoundary (state_error : value) (children : completion Panel)
  : value * Panel :=
  if truthy state_error then (state_error, ErrorPanel state_error)
  else match children with
       | Return v => (state_error, v)
       | Throw e => if truthy e then (e, ErrorPanel e) else (e, Unmounted e)
       end.

(** One render of the tree built around resource [r]: the new
    [state.error], the panel, and the [read()] calls made.  The children of
    the boundary are rendered, and [read()] is called, only when the
    boundary holds no truthy error. *)
Definition render_with (r : nat) (s : App) : value * Panel * list nat :=
  match read r (store s) with
  | Some data =>
      (ErrorBoundary (boundary s)
         (Suspense (ProductsPanel data (deferredQuery s))),
       if truthy (boundary s) then [] else [r])
  | None => (boundary s, panel s, [])
  end.

Definition render (s : App) : App :=
  let '(b, v, rd) := render_with (resource s) s in
  mkApp (store s) (query s) (resource s) (transition s) b (deferredQuery s)
        v (reads s ++ rd).

(** [handleChange(next)]: [setQuery(next)], and inside [startTransition] the
    call [createResource(fetchProducts(next))] whose result is handed to
    [setResource]. *)
Definition handleChange (next : jsstring) (s : App) : App :=
  let '(p, σ1) := fetchProducts next (store s) in
  let '(r, σ2) := createResource p σ1 in
  mkApp σ2 next (resource s) (Some r) (boundary s) (deferredQuery s)
        (panel s) (reads s).

(** React applies the scheduled [setResource]: the tree is rendered with the
    new resource and the result is put on screen. *)
Definition commit (s : App) : option App :=
  match transition s with
  | Some r =>
      Some (render (mkApp (store s) (query s) r None (boundary s)
                          (deferredQuery s) (panel s) (reads s)))
  | None => None
  end.

(** A render of the tree of the transition that React does not put on
    screen (it suspended or was interrupted): it has called [read()] on the
    scheduled resource. *)
Definition render_transition (s : App) : option App :=
  match transition s with
  | Some r =>
      let '(_, _, rd) := render_with r s in
      Some (mkApp (store s) (query s) (resource s) (transition s) (boundary s)
                  (deferredQuery s) (panel s) (reads s ++ rd))
  | None => None
  end.

(** [onClick={() => this.setState({ error: null })}]. *)
Definition retry (s : App) : App :=
  mkApp (store s) (query s) (resource s) (transition s) VNull
        (deferredQuery s) (panel s) (reads s).

(** The deferred value catches up with [query]. *)
Definition catch_up (s : App) : App :=
  mkApp (store s) (query s) (resource s) (transition s) (boundary s)
        (query s) (panel s) (reads s).

Definition with_store (σ : Store) (s : App) : App :=
  mkApp σ (query s) (resource s) (transition s) (boundary s)
        (deferredQuery s) (panel s) (reads s).

(** [useState("")], [useState(() => createResource(fetchProducts("")))] and
    the first render. *)
Definition mount : App :=
  let '(p, σ1) := fetchProducts [] loaded in
  let '(r, σ2) := createResource p σ1 in
  render (mkApp σ2 [] r None VNull [] Blank []).

Definition mounted (s : App) : bool :=
  match panel s with Unmounted _ => false | _ => true end.

Definition retry_offered (s : App) : bool :=
  match panel s with ErrorPanel _ => true | _ => false end.

(** What happens to the mounted application: the user types, React commits
    the scheduled transition, renders the committed tree again, renders the
    tree of the transition without committing, lets the deferred value catch
    up, the user presses "Try again", a timer fires, a promise job runs.
    When React does its part is its scheduler's choice and is left to the
    run, so that what holds of every run holds of every schedule. *)
Inductive event :=
| Typed (next : jsstring)
| Commit
| Render
| RenderTransition
| CatchUp
| TryAgain
| TimerFires (t : nat)
| JobRuns.

Definition app_step (e : event) (s : App) : option App :=
  match e with
  | TimerFires t => (λ σ, with_store σ s) <$> fire t (store s)
  | JobRuns => (λ σ, with_store σ s) <$> run_job (store s)
  | _ =>
      if mounted s then
        match e with
        | Typed next => Some (handleChange next s)
        | Commit => commit s
        | Render => Some (render s)
        | RenderTransition => render_transition s
        | CatchUp => Some (catch_up s)
        | TryAgain => if retry_offered s then Some (retry s) else None
        | _ => None
        end
      else None
  end.

Fixpoint app_run (l : list event) (s : App) : option App :=
  match l with
  | [] => Some s
  | e :: l' => match app_step e s with Some s' => app_run l' s' | None => None end
  end.

Definition app_reachable (s : App) : Prop := ∃ l, app_run l mount = Some s.


End Ui.

Import Ui.

(** ** Vocabulary of the statements *)

(** [q] occurs in [s] as a contiguous run of code units. *)
Definition occurs_in (q s : jsstring) : Prop := ∃ pre post, s = pre ++ q ++ post.

(** A record matches the normalized query [nq] when its lower-cased title or
    its lower-cased brand contains [nq]. *)
Definition contains_query (nq : jsstring) (p : Product) : Prop :=
  occurs_in nq (toLowerCase (title p)) ∨ occurs_in nq (toLowerCase (brand p)).

(** [l] is the subsequence of the catalog selected by the query: it keeps the
    catalog order and holds exactly the matching records. *)
Definition selected_by (query : jsstring) (l : list Product) : Prop :=
  sublist l ALL_PRODUCTS ∧
  ∀ p, p ∈ l ↔ p ∈ ALL_PRODUCTS ∧ contains_query (toLowerCase (trim query)) p.

(** The decimal numeral of [n], from the decimal printer of the Standard
    Library. *)
Definition decimal (n : nat) : jsstring :=
  lit (NilZero.string_of_uint (Nat.to_uint n)).

(** *** Stores

    The resource a queued job belongs to. *)
Definition job_resource (j : Job) : nat := match j with Reaction r _ => r end.

(** The callbacks that have been handed to [then] and have not run yet, by
    the resource they belong to: those waiting on a promise and those queued
    as jobs. *)
Definition waiting (σ : Store) : list nat :=
  concat (List.map reactions (promises σ)) ++ List.map job_resource (jobs σ).

(** What the two variables of a resource say about the awaited promise. *)
Definition outcome (R : Resource) : option settlement :=
  match status R with
  | pending => None
  | success => Some (Fulfilled (result R))
  | error => Some (Rejected (result R))
  end.

(** The bookkeeping of a store: a resource has one outstanding callback
    while [pending] and none afterwards; cells, waiting callbacks and queued
    jobs refer to promises and cells that exist and agree with them on what
    has settled. *)
Record consistent (σ : Store) : Prop := {
  c_once : NoDup (waiting σ);
  c_pending : ∀ r R, resources σ !! r = Some R → (status R = pending ↔ r ∈ waiting σ);
  c_waiting : ∀ r, r ∈ waiting σ → r < length (resources σ);
  c_awaited : ∀ r R, resources σ !! r = Some R →
    awaited R < length (promises σ) ∧
    ∃ S, promises σ !! suspender R = Some S ∧ origin S = ByReaction r;
  c_reaction : ∀ p P r, promises σ !! p = Some P → r ∈ reactions P →
    settled P = None ∧ ∃ R, resources σ !! r = Some R ∧ awaited R = p;
  c_job : ∀ r s, Reaction r s ∈ jobs σ →
    ∃ R P, resources σ !! r = Some R ∧ promises σ !! awaited R = Some P ∧
           settled P = Some s;
  c_outcome : ∀ r R, resources σ !! r = Some R → status R ≠ pending →
    ∃ P, promises σ !! awaited R = Some P ∧ settled P = outcome R
}.

(** Timers and the promises of [fetchProducts]: the catalog is the
    generated one; each timer holds an unsettled promise of its own; each
    promise of [fetchProducts] is fulfilled with the filtered catalog or is
    unsettled with its timer set. *)
Record scheduled (σ : Store) : Prop := {
  t_products : products σ = ALL_PRODUCTS;
  t_timer : ∀ t T, timers σ !! t = Some T →
    ∃ P, promises σ !! resolves T = Some P ∧ settled P = None ∧
         origin P = ByTimer (needle T);
  t_once : NoDup (List.map resolves (timers σ));
  t_fetch : ∀ p P q, promises σ !! p = Some P → origin P = ByTimer q →
    settled P = Some (Fulfilled (VProducts (filtered ALL_PRODUCTS q))) ∨
    (settled P = None ∧ mkTimer p q ∈ timers σ)
}.

Definition well_formed (σ : Store) : Prop := consistent σ ∧ scheduled σ.

(** What a step leaves alone: a promise stays where it is with its origin,
    and with its state once settled; a cell stays where it is with the
    promises it refers to, and unchanged once its status left [pending]; the
    catalog stays. *)
Definition extends (σ σ' : Store) : Prop :=
  (∀ p P, promises σ !! p = Some P →
     ∃ P', promises σ' !! p = Some P' ∧ origin P' = origin P ∧
           (settled P = None ∨ settled P' = settled P)) ∧
  (∀ r R, resources σ !! r = Some R →
     ∃ R', resources σ' !! r = Some R' ∧ awaited R' = awaited R ∧
           suspender R' = suspender R ∧ (status R = pending ∨ R' = R)) ∧
  products σ' = products σ.

(** What [read()] does once the callback for settlement [s] has run. *)
Definition reflects (s : settlement) : completion value :=
  match s with Fulfilled v => Return v | Rejected e => Throw e end.

(** *** Sample stores and states

    The store after [const p = new Promise(...)], [resolve(1)] and
    [createResource(p)], before any promise job ran. *)
Definition wrapped_after_fulfilment : Store :=
  mkStore [ mkPromise (Some (Fulfilled (VNumber 1))) [] ByCaller;
            mkPromise None [] (ByReaction 0) ]
          [ mkResource pending VUndefined 1 0 ]
          []
          [ Reaction 0 (Fulfilled (VNumber 1)) ]
          ALL_PRODUCTS.

(** The same after the queued job ran. *)
Definition wrapped_and_notified : Store :=
  mkStore [ mkPromise (Some (Fulfilled (VNumber 1))) [] ByCaller;
            mkPromise (Some (Fulfilled VUndefined)) [] (ByReaction 0) ]
          [ mkResource success (VNumber 1) 1 0 ]
          []
          []
          ALL_PRODUCTS.

(** The same after a later [fetchProducts("")] whose timer has fired. *)
Definition wrapped_and_notified_later : Store :=
  mkStore [ mkPromise (Some (Fulfilled (VNumber 1))) [] ByCaller;
            mkPromise (Some (Fulfilled VUndefined)) [] (ByReaction 0);
            mkPromise (Some (Fulfilled (VProducts ALL_PRODUCTS))) [] (ByTimer []) ]
          [ mkResource success (VNumber 1) 1 0 ]
          []
          []
          ALL_PRODUCTS.

(** *** The application

    In the application every resource awaits a promise of [fetchProducts]. *)
Definition fetch_only (σ : Store) : Prop :=
  ∀ r R, resources σ !! r = Some R →
    ∃ P q, promises σ !! awaited R = Some P ∧ origin P = ByTimer q.

(** The store of the application is one the program can reach, and the
    committed and the scheduled resource exist in it. *)
Record app_inv (s : App) : Prop := {
  a_store : reachable (store s);
  a_fetch : fetch_only (store s);
  a_resource : resource s < length (resources (store s));
  a_transition : ∀ r, transition s = Some r → r < length (resources (store s))
}.

(** The screen shows the committed resource: the boundary holds no error,
    and the region shows the placeholders or the cards made from the result
    that the committed resource holds. *)
Definition shows_committed (s : App) : Prop :=
  boundary s = VNull ∧
  (panel s = Skeleton 9 ∨
   ∃ R found deferred,
     resources (store s) !! resource s = Some R ∧ status R = success ∧
     result R = VProducts found ∧ panel s = Grid (visible found deferred) deferred).

(** What the region shows for a boundary state, a completed [read()] and a
    deferred query. *)
Definition view (b : value) (data : completion value) (deferred : jsstring) : Panel :=
  snd (ErrorBoundary b (Suspense (ProductsPanel data deferred))).

(** The store after [createResource(fetchProducts(next))]: one new promise
    with its timer, one new suspender, one new cell. *)
Definition after_fetch (next : jsstring) (σ : Store) : Store :=
  let p := length (promises σ) in
  let r := length (resources σ) in
  mkStore (promises σ ++ [ mkPromise None [r] (ByTimer (normalize next));
                           mkPromise None [] (ByReaction r) ])
          (resources σ ++ [ mkResource pending VUndefined (S p) p ])
          (timers σ ++ [ mkTimer p (normalize next) ])
          (jobs σ) (products σ).

Global Instance Product_eq_dec : EqDecision Product.
Proof. solve_decision. Defined.

(** The state a run leads to (the start state when the run is refused). *)
Definition state_after (l : list event) (s : App) : App :=
  default s (app_run l s).

(** The run used below: the user types "a" and React commits the new
    resource, which supersedes the one of the mount; later the older timer
    fires, its job runs and React renders. *)
Definition typed_a : App := state_after [Typed (lit "a"); Commit] mount.
Definition typed_a_later : App := state_after [TimerFires 0; JobRuns; Render] typed_a.


(** A store in which a promise was rejected with an [Error] and the resource
    made from it has been notified, and the application around it after the
    boundary captured the failure. *)
Definition failed_store : Store :=
  mkStore [ mkPromise (Some (Rejected (VError (lit "offline")))) [] ByCaller;
            mkPromise (Some (Fulfilled VUndefined)) [] (ByReaction 0) ]
          [ mkResource error (VError (lit "offline")) 1 0 ]
          [] [] ALL_PRODUCTS.

Definition failed_app : App :=
  mkApp failed_store [] 0 None (VError (lit "offline")) []
        (ErrorPanel (VError (lit "offline"))) [0].

(** The store after [fetchProducts(" Knife ")] and its timer. *)
Definition knife_fetched : Store :=
  mkStore [ mkPromise (Some (Fulfilled (VProducts (filtered ALL_PRODUCTS (lit "knife")))))
                      [] (ByTimer (lit "knife")) ]
          [] [] [] ALL_PRODUCTS.

(** The store after [fetchProducts("Knife")], [createResource] of its promise,
    the timer and the promise job. *)
Definition knife_store : Store :=
  mkStore [ mkPromise (Some (Fulfilled (VProducts (filtered ALL_PRODUCTS (lit "knife")))))
                      [] (ByTimer (lit "knife"));
            mkPromise (Some (Fulfilled VUndefined)) [] (ByReaction 0) ]
          [ mkResource success (VProducts (filtered ALL_PRODUCTS (lit "knife"))) 1 0 ]
          [] [] ALL_PRODUCTS.

(** *** More vocabulary: queries *)

(** Every code unit of [ws] is white space. *)
Definition blank (ws : jsstring) : Prop := Forall (λ c, is_space c = true) ws.

(** The code units of Basic Latin and Latin-1 Supplement: on a string made
    of them [toLowerCase] works one code unit at a time, as [lower_unit]
    does. *)
Definition latin1 (q : jsstring) : bool := forallb (λ c, c <? 256)%N q.

(** [c] occurs in the lower-cased title or brand of some record of the
    catalog. *)
Definition catalog_unit (c : N) : bool :=
  existsb (λ p, existsb (N.eqb c) (toLowerCase (title p))
                || existsb (N.eqb c) (toLowerCase (brand p)))
          ALL_PRODUCTS.

(** What [ProductsPanel] returns when [visible.length === 0]: no card, and
    the message "No results for" with the deferred query. *)
Definition no_results (deferred : jsstring) : Panel := Grid [] deferred.

(** The longest lower-cased title or brand of the catalog has 21 code units. *)
Definition longest_text : nat := 21.

(** *** More vocabulary: stores *)

(** The state of the suspender of a cell: unsettled while the status is
    [pending], fulfilled with [undefined] afterwards. *)
Definition suspender_state (R : Resource) : option settlement :=
  match status R with
  | pending => None
  | _ => Some (Fulfilled VUndefined)
  end.

(** Every cell has a suspender of its own, in the state its status tells. *)
Definition suspenders_track (σ : Store) : Prop :=
  ∀ r R, resources σ !! r = Some R →
    ∃ S, promises σ !! suspender R = Some S ∧ origin S = ByReaction r ∧
         settled S = suspender_state R.

(** *** More vocabulary: the application *)

(** Resource [r] awaits the promise that [fetchProducts] made for the
    normalized query [q]. *)
Definition fetched_for (r : nat) (q : jsstring) (σ : Store) : Prop :=
  ∃ R P, resources σ !! r = Some R ∧ promises σ !! awaited R = Some P ∧
         origin P = ByTimer q.

(** The resource handed to [setResource] (or to [useState]) last: the
    scheduled one, or else the committed one. *)
Definition latest (s : App) : nat := default (resource s) (transition s).

(** The latest resource is the one fetched for the text of the input. *)
Definition tracks_query (s : App) : Prop :=
  fetched_for (latest s) (normalize (query s)) (store s).

(** A store in which one fulfilled promise was wrapped twice and both
    callbacks have run. *)
Definition wrapped_twice : Store :=
  mkStore [ mkPromise (Some (Fulfilled (VNumber 1))) [] ByCaller;
            mkPromise (Some (Fulfilled VUndefined)) [] (ByReaction 0);
            mkPromise (Some (Fulfilled VUndefined)) [] (ByReaction 1) ]
          [ mkResource success (VNumber 1) 1 0;
            mkResource success (VNumber 1) 2 0 ]
          [] [] ALL_PRODUCTS.

(** What the boundary makes of a reason thrown by [read()] below it while
    its own state holds no error. *)
Definition classified (e : value) : Panel :=
  if is_promise e then Skeleton 9
  else if truthy e then ErrorPanel e else Unmounted e.

(** *** More vocabulary: the latency *)

(** The mantissa of [1200 - 350 + 1], which is [851 * 2^43] with exponent
    [-43]. *)
Definition span : positive := 7485475161899008.

(** A Number in the middle of the [k]-th of 851 equal parts of the unit
    interval. *)
Definition midpoint (k : Z) : spec_float :=
  Number.div (Number.of_Z (2 * k + 1)) (Number.of_Z 1702).

Global Instance spec_float_eq_dec : EqDecision spec_float.
Proof. solve_decision. Defined.

(** *** More vocabulary: superseded resources *)




(** ** Strings *)

Section StringFacts.

Lemma startsWith_prefix s q : startsWith s q = true ↔ ∃ post, s = q ++ post.
Proof.
  revert s; induction q as [|c q IH]; intros s; simpl.
  - split; [intros _; by exists s | intros _; by destruct s].
  - destruct s as [|d s]; simpl.
    + split; [discriminate | intros [post H]; discriminate].
    + rewrite andb_true_iff, N.eqb_eq, IH. split.
      * intros [-> [post ->]]. eauto.
      * intros [post H]. injection H as -> ->. eauto.
Qed.

Lemma includes_occurs s q : includes s q = true ↔ occurs_in q s.
Proof.
  unfold occurs_in. induction s as [|d s IH]; cbn [includes].
  - rewrite orb_false_r, startsWith_prefix. split.
    + intros [post H]. exists [], post. exact H.
    + intros (pre & post & H). destruct pre; [eauto | discriminate].
  - rewrite orb_true_iff, IH, (startsWith_prefix (d :: s)). split.
    + intros [[post H] | (pre & post & H)].
      * exists [], post. exact H.
      * exists (d :: pre), post. simpl. by rewrite H.
    + intros (pre & post & H). destruct pre as [|e pre]; simpl in H.
      * left. eauto.
      * right. injection H as -> ->. eauto.
Qed.

Lemma includes_empty s : includes s [] = true.
Proof. destruct s; reflexivity. Qed.

Lemma is_space_false (c : N) :
  (14 ≤ c < 32 ∨ 33 ≤ c < 160 ∨ 161 ≤ c < 5760)%N → is_space c = false.
Proof.
  intros H. apply not_true_is_false. unfold is_space.
  rewrite !orb_true_iff, !andb_true_iff, !N.leb_le, !N.eqb_eq. lia.
Qed.

(** Lower-casing turns no code unit into white space and no white space into
    anything else. *)
Lemma is_space_lower_unit c : is_space (lower_unit c) = is_space c.
Proof.
  unfold lower_unit.
  destruct ((65 <=? c)%N && (c <=? 90)%N) eqn:H1;
    [|destruct ((192 <=? c)%N && (c <=? 222)%N && negb (c =? 215)%N) eqn:H2;
      [|destruct (c =? 0x212A)%N eqn:H3]];
    try reflexivity;
    rewrite ?andb_true_iff, ?negb_true_iff, ?N.leb_le, ?N.eqb_neq, ?N.eqb_eq in *.
  - rewrite !is_space_false; [reflexivity | lia | lia].
  - rewrite !is_space_false; [reflexivity | lia | lia].
  - by subst c.
Qed.

Lemma trimStart_toLowerCase s : trimStart (toLowerCase s) = toLowerCase (trimStart s).
Proof.
  induction s as [|c s IH]; simpl; [reflexivity|].
  rewrite is_space_lower_unit. destruct (is_space c); [exact IH | reflexivity].
Qed.

Lemma trimEnd_toLowerCase s : trimEnd (toLowerCase s) = toLowerCase (trimEnd s).
Proof.
  assert (Hrev : ∀ x, toLowerCase (rev x) = rev (toLowerCase x))
    by (intros x; apply map_rev).
  unfold trimEnd. by rewrite Hrev, <- trimStart_toLowerCase, Hrev.
Qed.

(** [toLowerCase().trim()] and [trim().toLowerCase()] agree. *)
Lemma normalize_trim_first query : normalize query = toLowerCase (trim query).
Proof.
  unfold normalize, trim. by rewrite trimStart_toLowerCase, trimEnd_toLowerCase.
Qed.

Lemma normalize_trimmed q : trim q = q → normalize q = toLowerCase q.
Proof. intros H. by rewrite normalize_trim_first, H. Qed.

End StringFacts.

(** ** The catalog *)

Section CatalogFacts.

Lemma filter_twice {A} (f : A → bool) (l : list A) :
  List.filter f (List.filter f l) = List.filter f l.
Proof.
  induction l as [|a l IH]; simpl; [reflexivity|].
  destruct (f a) eqn:E; simpl; rewrite ?E, IH; reflexivity.
Qed.

Lemma filter_sublist {A} (f : A → bool) (l : list A) : sublist (List.filter f l) l.
Proof.
  induction l as [|a l IH]; simpl; [constructor|].
  destruct (f a); by constructor.
Qed.

Lemma matches_contains q p : matches q p = true ↔ contains_query q p.
Proof.
  unfold matches, contains_query. by rewrite orb_true_iff, !includes_occurs.
Qed.

Lemma filtered_selected query : selected_by query (filtered ALL_PRODUCTS (normalize query)).
Proof.
  split; [apply filter_sublist|].
  intros p. unfold filtered.
  rewrite list_elem_of_In, filter_In, matches_contains, <- list_elem_of_In.
  by rewrite normalize_trim_first.
Qed.

Lemma filtered_empty_query products : filtered products (normalize []) = products.
Proof.
  unfold filtered. change (normalize []) with (@nil N).
  induction products as [|p l IH]; simpl; [reflexivity|].
  unfold matches at 1. by rewrite includes_empty, IH.
Qed.

(** Two subsequences of a duplicate-free list with the same elements are
    the same list. *)
Lemma sublist_same_elements {A} (k l1 l2 : list A) :
  NoDup k → sublist l1 k → sublist l2 k → (∀ x, x ∈ l1 ↔ x ∈ l2) → l1 = l2.
Proof.
  revert l1 l2. induction k as [|a k IH]; intros l1 l2 Hk H1 H2 Hsame.
  - apply sublist_nil_r in H1, H2. congruence.
  - apply NoDup_cons in Hk as [Ha Hk].
    apply sublist_cons_r in H1 as [H1 | (l1' & -> & H1)];
      apply sublist_cons_r in H2 as [H2 | (l2' & -> & H2)].
    + by apply IH.
    + destruct Ha. apply (elem_of_sublist l1); [|done]. apply Hsame. left.
    + destruct Ha. apply (elem_of_sublist l2); [|done]. apply Hsame. left.
    + f_equal. apply IH; try done. intros x. split; intros Hx.
      * assert (Hx' : x ∈ a :: l2') by (apply Hsame; by right).
        apply elem_of_cons in Hx' as [-> | ?]; [|done].
        destruct Ha. by apply (elem_of_sublist l1').
      * assert (Hx' : x ∈ a :: l1') by (apply Hsame; by right).
        apply elem_of_cons in Hx' as [-> | ?]; [|done].
        destruct Ha. by apply (elem_of_sublist l2').
Qed.

Lemma ALL_PRODUCTS_unfold : ALL_PRODUCTS = List.map product_at (seq 0 250).
Proof. with_strategy transparent [ALL_PRODUCTS] reflexivity. Qed.

Lemma ALL_PRODUCTS_lookup i : i < 250 → ALL_PRODUCTS !! i = Some (product_at i).
Proof.
  intros H. rewrite ALL_PRODUCTS_unfold.
  change (List.map product_at (seq 0 250)) with (product_at <$> seq 0 250).
  rewrite list_lookup_fmap, lookup_seq_lt by exact H. reflexivity.
Qed.

Lemma ids_distinct : NoDup (id <$> ALL_PRODUCTS).
Proof. apply (bool_decide_unpack _). vm_compute. exact I. Qed.

(** The query selects one list only. *)
Lemma selected_by_unique query l :
  selected_by query l → l = filtered ALL_PRODUCTS (normalize query).
Proof.
  intros [Hsub Hin]. destruct (filtered_selected query) as [Hsub' Hin'].
  apply (sublist_same_elements ALL_PRODUCTS); try done.
  - apply (NoDup_fmap_1 id), ids_distinct.
  - intros x. by rewrite Hin, Hin'.
Qed.

Lemma at_index_lookup (a : list jsstring) k : k < length a → a !! k = Some (at_index a k).
Proof.
  intros H. unfold at_index.
  destruct (a !! k) eqn:E.
  - f_equal. symmetry. apply nth_lookup_Some with (d := lit "undefined") in E. exact E.
  - apply lookup_ge_None in E. lia.
Qed.

End CatalogFacts.

(** ** The store: bookkeeping of promises, callbacks and resources *)

Section StoreFacts.

Implicit Types (σ : Store) (p r t : nat) (s : settlement).

Lemma settle_cases p s σ :
  (∃ P, promises σ !! p = Some P ∧ settled P = None ∧
        settle p s σ =
          mkStore (<[p := mkPromise (Some s) [] (origin P)]> (promises σ))
                  (resources σ) (timers σ)
                  (jobs σ ++ List.map (λ r, Reaction r s) (reactions P))
                  (products σ))
  ∨ ((∀ P, promises σ !! p = Some P → settled P ≠ None) ∧ settle p s σ = σ).
Proof.
  unfold settle. destruct (promises σ !! p) as [P|] eqn:E.
  - destruct (settled P) eqn:E'.
    + right. split; [|done]. intros P' [= <-]. congruence.
    + left. exists P. auto.
  - right. split; [|done]. intros P' [=].
Qed.

Lemma then_cases p r σ P :
  promises σ !! p = Some P →
  (settled P = None ∧
   then_ p r σ =
     mkStore (<[p := mkPromise None (reactions P ++ [r]) (origin P)]> (promises σ))
             (resources σ) (timers σ) (jobs σ) (products σ))
  ∨ (∃ s, settled P = Some s ∧
          then_ p r σ =
            mkStore (promises σ) (resources σ) (timers σ)
                    (jobs σ ++ [Reaction r s]) (products σ)).
Proof.
  intros E. unfold then_. rewrite E. destruct (settled P) eqn:E'; eauto.
Qed.

Lemma reactions_split (ps : list Promise) p P P' :
  ps !! p = Some P →
  ∃ rest, concat (List.map reactions ps) ≡ₚ reactions P ++ rest ∧
          concat (List.map reactions (<[p := P']> ps)) ≡ₚ reactions P' ++ rest.
Proof.
  intros E.
  exists (concat (List.map reactions (take p ps)) ++
          concat (List.map reactions (drop (S p) ps))).
  assert (Hlt := lookup_lt_Some _ _ _ E).
  rewrite insert_take_drop by exact Hlt.
  rewrite <- (take_drop_middle ps p P E) at 1.
  rewrite !List.map_app. simpl. rewrite !concat_app. simpl.
  split; rewrite !app_assoc;
    apply Permutation_app_tail, Permutation_app_comm.
Qed.

Lemma job_resource_reactions s (l : list nat) :
  List.map job_resource (List.map (λ r, Reaction r s) l) = l.
Proof. induction l; simpl; congruence. Qed.

Lemma waiting_settle p s σ : waiting (settle p s σ) ≡ₚ waiting σ.
Proof.
  destruct (settle_cases p s σ) as [(P & E & _ & ->) | [_ ->]]; [|done].
  unfold waiting; simpl.
  destruct (reactions_split _ p P (mkPromise (Some s) [] (origin P)) E)
    as (rest & H1 & H2).
  rewrite H1, H2, List.map_app, job_resource_reactions. simpl.
  rewrite (Permutation_app_comm (List.map job_resource (jobs σ))), !app_assoc.
  apply Permutation_app_tail, Permutation_app_comm.
Qed.

Lemma waiting_then p r σ P :
  promises σ !! p = Some P → waiting (then_ p r σ) ≡ₚ r :: waiting σ.
Proof.
  intros E.
  destruct (then_cases p r σ P E) as [[_ ->] | (s & _ & ->)]; unfold waiting; simpl.
  - destruct (reactions_split _ p P (mkPromise None (reactions P ++ [r]) (origin P)) E)
      as (rest & H1 & H2).
    rewrite H1, H2. simpl. rewrite <- !app_assoc. simpl.
    by rewrite <- Permutation_middle.
  - rewrite List.map_app. simpl.
    by rewrite app_assoc, <- Permutation_cons_append.
Qed.

(** Settling changes no resource and no length, and a promise other than the
    settled one keeps its record. *)
Lemma settle_resources p s σ : resources (settle p s σ) = resources σ.
Proof. by destruct (settle_cases p s σ) as [(P & _ & _ & ->) | [_ ->]]. Qed.

Lemma settle_timers p s σ : timers (settle p s σ) = timers σ.
Proof. by destruct (settle_cases p s σ) as [(P & _ & _ & ->) | [_ ->]]. Qed.

Lemma settle_products p s σ : products (settle p s σ) = products σ.
Proof. by destruct (settle_cases p s σ) as [(P & _ & _ & ->) | [_ ->]]. Qed.

Lemma settle_length p s σ : length (promises (settle p s σ)) = length (promises σ).
Proof.
  destruct (settle_cases p s σ) as [(P & _ & _ & ->) | [_ ->]]; [|done].
  simpl. apply length_insert.
Qed.

(** After [settle], every promise has its old origin; it has its old state
    too, unless it is the settled one and was unsettled. *)
Lemma settle_lookup p s σ p' P' :
  promises (settle p s σ) !! p' = Some P' →
  ∃ P, promises σ !! p' = Some P ∧ origin P' = origin P ∧
       (P' = P ∨ (p' = p ∧ settled P = None ∧ settled P' = Some s ∧ reactions P' = [])).
Proof.
  destruct (settle_cases p s σ) as [(P & E & E' & ->) | [_ ->]]; simpl.
  - destruct (decide (p' = p)) as [->|Hne].
    + rewrite list_lookup_insert_eq by (by eapply lookup_lt_Some).
      intros [= <-]. exists P. simpl. eauto 10.
    + rewrite list_lookup_insert_ne by done. eauto.
  - eauto.
Qed.

Lemma settle_lookup_old p s σ p' P :
  promises σ !! p' = Some P →
  ∃ P', promises (settle p s σ) !! p' = Some P' ∧ origin P' = origin P ∧
        (settled P = None ∨ settled P' = settled P) ∧
        (p' ≠ p → P' = P) ∧
        (settled P ≠ None → P' = P).
Proof.
  intros E0.
  destruct (settle_cases p s σ) as [(Q & E & E' & ->) | [_ ->]]; simpl.
  - destruct (decide (p' = p)) as [->|Hne].
    + rewrite list_lookup_insert_eq by (by eapply lookup_lt_Some).
      assert (Q = P) as -> by congruence.
      eexists. split; [done|]. simpl. split; [done|]. split; [by left|].
      split; [done|]. intros H. by destruct H.
    + rewrite list_lookup_insert_ne by done. eauto 10.
  - eauto 10.
Qed.

Lemma settle_jobs p s σ j :
  j ∈ jobs (settle p s σ) →
  j ∈ jobs σ ∨
  ∃ P r, promises σ !! p = Some P ∧ settled P = None ∧ r ∈ reactions P ∧
         j = Reaction r s.
Proof.
  destruct (settle_cases p s σ) as [(P & E & E' & ->) | [_ ->]]; simpl; [|auto].
  rewrite elem_of_app. intros [H | H]; [auto|].
  apply list_elem_of_In, in_map_iff in H as (r & <- & H).
  right. exists P, r. by rewrite list_elem_of_In.
Qed.

End StoreFacts.

Section Preservation.

Implicit Types (σ : Store) (p r t : nat) (s : settlement).

Lemma loaded_consistent : consistent loaded.
Proof.
  split; unfold waiting; simpl; try (intros *; rewrite ?lookup_nil; done).
  - constructor.
  - intros r H. by apply elem_of_nil in H.
  - intros r s H. by apply elem_of_nil in H.
Qed.

Lemma with_timers_consistent f σ : consistent σ → consistent (with_timers f σ).
Proof. intros [H1 H2 H3 H4 H5 H6 H7]. by split. Qed.

Lemma waiting_alloc o σ : waiting (snd (alloc_promise o σ)) = waiting σ.
Proof.
  unfold waiting; simpl. by rewrite List.map_app, concat_app, app_nil_r.
Qed.

Lemma alloc_consistent o σ : consistent σ → consistent (snd (alloc_promise o σ)).
Proof.
  intros [H1 H2 H3 H4 H5 H6 H7].
  split; rewrite ?waiting_alloc; simpl; try done.
  - intros r R E. destruct (H4 r R E) as (Hlt & S & ES & HS).
    rewrite length_app; simpl. split; [lia|].
    exists S. split; [|done]. by apply lookup_app_l_Some.
  - intros p P r E Hr. apply lookup_app_Some in E as [E | [_ E]].
    + eauto.
    + apply list_lookup_singleton_Some in E as [_ <-]. simpl in Hr.
      by apply elem_of_nil in Hr.
  - intros r s Hj. destruct (H6 r s Hj) as (R & P & ER & EP & HP).
    exists R, P. split_and!; try done. by apply lookup_app_l_Some.
  - intros r R E Hs. destruct (H7 r R E Hs) as (P & EP & HP).
    exists P. split; [|done]. by apply lookup_app_l_Some.
Qed.

Lemma settle_consistent p s σ : consistent σ → consistent (settle p s σ).
Proof.
  intros [H1 H2 H3 H4 H5 H6 H7].
  split; rewrite ?settle_resources, ?settle_length.
  - by rewrite waiting_settle.
  - intros r R E. rewrite waiting_settle. auto.
  - intros r. rewrite waiting_settle. auto.
  - intros r R E. destruct (H4 r R E) as (Hlt & S & ES & HS). split; [done|].
    destruct (settle_lookup_old p s σ _ S ES) as (S' & ES' & HO & _).
    exists S'. split; [done|]. congruence.
  - intros p' P' r E Hr.
    destruct (settle_lookup p s σ p' P' E) as (P & EP & _ & [-> | (_ & _ & _ & Hnil)]).
    + eauto.
    + rewrite Hnil in Hr. by apply elem_of_nil in Hr.
  - intros r s' Hj. apply settle_jobs in Hj as [Hj | (P & r' & EP & HP & Hr & [= -> ->])].
    + destruct (H6 r s' Hj) as (R & P & ER & EP & HP).
      destruct (settle_lookup_old p s σ _ P EP) as (P' & EP' & _ & _ & _ & Hsame).
      exists R, P'. split_and!; try done.
      rewrite Hsame by congruence. done.
    + destruct (H5 p P r' EP Hr) as (_ & R & ER & <-).
      destruct (settle_cases (awaited R) s σ) as [(Q & EQ & _ & ->) | [Hset _]].
      * exists R. eexists. split_and!; [done| |]; simpl.
        -- rewrite list_lookup_insert_eq by (by eapply lookup_lt_Some). done.
        -- done.
      * by destruct (Hset P EP).
  - intros r R E Hs. destruct (H7 r R E Hs) as (P & EP & HP).
    destruct (settle_lookup_old p s σ _ P EP) as (P' & EP' & _ & _ & _ & Hsame).
    exists P'. split; [done|]. rewrite Hsame; [done|].
    rewrite HP. unfold outcome. by destruct (status R).
Qed.

(** The second half of [createResource]: the cell is created and its
    callbacks are handed to [then]. *)
Lemma register_consistent p σ S :
  let r := length (resources σ) in
  consistent σ →
  p < length (promises σ) →
  ∀ sp, promises σ !! sp = Some S → origin S = ByReaction r →
  consistent
    (then_ p r (with_resources (λ rs, rs ++ [mkResource pending VUndefined sp p]) σ)).
Proof.
  intros r [H1 H2 H3 H4 H5 H6 H7] Hp sp ES HS.
  set (R0 := mkResource pending VUndefined sp p).
  set (σ2 := with_resources (λ rs, rs ++ [R0]) σ).
  destruct (lookup_lt_is_Some_2 _ _ Hp) as [P EP].
  assert (EP2 : promises σ2 !! p = Some P) by done.
  assert (HW := waiting_then p r σ2 P EP2).
  assert (HW2 : waiting σ2 = waiting σ) by done.
  assert (Hfresh : r ∉ waiting σ) by (intros H; apply H3 in H; unfold r in H; lia).
  assert (Hres : resources (then_ p r σ2) = resources σ ++ [R0])
    by (destruct (then_cases p r σ2 P EP2) as [[_ ->] | (s & _ & ->)]; done).
  assert (Hlen : length (promises (then_ p r σ2)) = length (promises σ)).
  { destruct (then_cases p r σ2 P EP2) as [[_ ->] | (s & _ & ->)]; simpl; [|done].
    apply length_insert. }
  assert (Hold : ∀ p' Q, promises σ !! p' = Some Q →
            ∃ Q', promises (then_ p r σ2) !! p' = Some Q' ∧
                  settled Q' = settled Q ∧ origin Q' = origin Q).
  { intros p' Q EQ.
    destruct (then_cases p r σ2 P EP2) as [[HP ->] | (s & _ & ->)]; simpl; [|eauto].
    destruct (decide (p' = p)) as [->|Hne].
    - rewrite list_lookup_insert_eq by done.
      assert (Q = P) as -> by congruence. eexists. split; [done|]. by simpl.
    - rewrite list_lookup_insert_ne by done. eauto. }
  split; rewrite ?Hres, ?Hlen.
  - rewrite HW, HW2. apply NoDup_cons. auto.
  - intros r' R E. rewrite HW, HW2. apply lookup_app_Some in E as [E | [Hge E]].
    + rewrite elem_of_cons, (H2 r' R E).
      assert (r' ≠ r) by (apply lookup_lt_Some in E; unfold r; lia).
      split; [by right | by intros [?|?]].
    + apply list_lookup_singleton_Some in E as [Hr <-]. simpl.
      assert (r' = r) as -> by (unfold r; lia).
      split; [intros _; by left | done].
  - intros r'. rewrite HW, HW2, elem_of_cons, length_app. simpl.
    intros [-> | H]; [unfold r; lia|]. apply H3 in H. lia.
  - intros r' R E. apply lookup_app_Some in E as [E | [Hge E]].
    + destruct (H4 r' R E) as (Hlt & S' & ES' & HS'). split; [done|].
      destruct (Hold _ _ ES') as (Q' & EQ' & _ & HO). exists Q'. split; [done|]. congruence.
    + apply list_lookup_singleton_Some in E as [Hr <-]. simpl. split; [done|].
      destruct (Hold _ _ ES) as (Q' & EQ' & _ & HO). exists Q'. split; [done|].
      rewrite HO, HS. f_equal. unfold r. lia.
  - intros p' Q' r' E Hr.
    destruct (then_cases p r σ2 P EP2) as [[HP Hσ] | (s & _ & Hσ)];
      rewrite Hσ in E; simpl in E.
    + destruct (decide (p' = p)) as [->|Hne].
      * rewrite list_lookup_insert_eq in E by done. injection E as <-.
        simpl in Hr |- *. split; [done|].
        apply elem_of_app in Hr as [Hr | Hr].
        -- destruct (H5 p P r' EP Hr) as (_ & R & ER & HR).
           exists R. split; [|done]. by apply lookup_app_l_Some.
        -- apply list_elem_of_singleton in Hr as ->.
           exists R0. split; [|done]. by apply list_lookup_middle.
      * rewrite list_lookup_insert_ne in E by done.
        destruct (H5 p' Q' r' E Hr) as (HQ & R & ER & HR).
        split; [done|]. exists R. split; [|done]. by apply lookup_app_l_Some.
    + destruct (H5 p' Q' r' E Hr) as (HQ & R & ER & HR).
      split; [done|]. exists R. split; [|done]. by apply lookup_app_l_Some.
  - intros r' s Hj.
    assert (Hjobs : Reaction r' s ∈ jobs σ ∨ (r' = r ∧ settled P = Some s)).
    { destruct (then_cases p r σ2 P EP2) as [[HP Hσ] | (s' & HP & Hσ)];
        rewrite Hσ in Hj; simpl in Hj; [by left|].
      apply elem_of_app in Hj as [Hj | Hj]; [by left|].
      apply list_elem_of_singleton in Hj as [= -> ->]. by right. }
    destruct Hjobs as [Hj' | [-> HP]].
    + destruct (H6 r' s Hj') as (R & Q & ER & EQ & HQ).
      destruct (Hold _ _ EQ) as (Q' & EQ' & HS' & _).
      exists R, Q'. split_and!; [by apply lookup_app_l_Some | done | congruence].
    + destruct (Hold _ _ EP) as (Q' & EQ' & HS' & _).
      exists R0, Q'. split_and!; [by apply list_lookup_middle | done | congruence].
  - intros r' R E Hs. apply lookup_app_Some in E as [E | [Hge E]].
    + destruct (H7 r' R E Hs) as (Q & EQ & HQ).
      destruct (Hold _ _ EQ) as (Q' & EQ' & HS' & _).
      exists Q'. split; [done | congruence].
    + apply list_lookup_singleton_Some in E as [_ <-]. by simpl in Hs.
Qed.

Lemma createResource_consistent p σ :
  p < length (promises σ) → consistent σ → consistent (snd (createResource p σ)).
Proof.
  intros Hp Hσ. unfold createResource. simpl.
  apply (register_consistent p (snd (alloc_promise (ByReaction (length (resources σ))) σ))
           (mkPromise None [] (ByReaction (length (resources σ))))).
  - by apply alloc_consistent.
  - simpl. rewrite length_app. simpl. lia.
  - simpl. by apply list_lookup_middle.
  - done.
Qed.

End Preservation.

Section JobFacts.

Implicit Types (σ : Store) (p r t : nat) (s : settlement).

Lemma run_job_cases σ σ' :
  run_job σ = Some σ' →
  ∃ r s rest R,
    jobs σ = Reaction r s :: rest ∧ resources σ !! r = Some R ∧
    σ' = settle (suspender R) (Fulfilled VUndefined)
           (mkStore (promises σ) (<[r := callback s R]> (resources σ))
                    (timers σ) rest (products σ)).
Proof.
  unfold run_job. destruct (jobs σ) as [|[r s] rest]; [done|].
  destruct (resources σ !! r) as [R|] eqn:E; [|done].
  intros [= <-]. exists r, s, rest, R. done.
Qed.

Lemma callback_fields s R :
  awaited (callback s R) = awaited R ∧ suspender (callback s R) = suspender R ∧
  status (callback s R) ≠ pending ∧ outcome (callback s R) = Some s.
Proof. by destruct s. Qed.

(** The cell of resource [r] after its callback ran, next to the other cells. *)
Lemma callback_lookup (rs : list Resource) r s R r' R' :
  rs !! r = Some R →
  <[r := callback s R]> rs !! r' = Some R' →
  (r' = r ∧ R' = callback s R) ∨ (r' ≠ r ∧ rs !! r' = Some R').
Proof.
  intros E. destruct (decide (r' = r)) as [->|Hne].
  - rewrite list_lookup_insert_eq by (by eapply lookup_lt_Some).
    intros [= <-]. by left.
  - rewrite list_lookup_insert_ne by done. by right.
Qed.

Lemma callback_lookup_old (rs : list Resource) r s R r' R' :
  rs !! r = Some R →
  rs !! r' = Some R' →
  ∃ R'', <[r := callback s R]> rs !! r' = Some R'' ∧ awaited R'' = awaited R' ∧
         suspender R'' = suspender R'.
Proof.
  intros E E'. destruct (decide (r' = r)) as [->|Hne].
  - rewrite list_lookup_insert_eq by (by eapply lookup_lt_Some).
    assert (R' = R) as -> by congruence.
    eexists. split; [done|]. by destruct s.
  - rewrite list_lookup_insert_ne by done. eauto.
Qed.

Lemma run_job_consistent σ σ' : run_job σ = Some σ' → consistent σ → consistent σ'.
Proof.
  intros Hrun [H1 H2 H3 H4 H5 H6 H7].
  destruct (run_job_cases σ σ' Hrun) as (r & s & rest & R & Hjobs & ER & ->).
  apply settle_consistent.
  assert (HW : waiting σ ≡ₚ
               r :: (concat (List.map reactions (promises σ)) ++
                     List.map job_resource rest)).
  { unfold waiting. rewrite Hjobs. simpl. by rewrite <- Permutation_middle. }
  rewrite HW in H1. apply NoDup_cons in H1 as [Hr H1].
  assert (Hhead : Reaction r s ∈ jobs σ) by (rewrite Hjobs; left).
  destruct (callback_fields s R) as (Haw & Hsu & Hst & Hout).
  split; unfold waiting; simpl.
  - done.
  - intros r' R' E. apply (callback_lookup _ _ _ _ _ _ ER) in E as [[-> ->] | [Hne E]].
    + split; [done | by intros H; destruct Hr].
    + rewrite (H2 r' R' E), HW, elem_of_cons. split; [|auto].
      by intros [? | ?].
  - intros r' Hr'. rewrite length_insert. apply H3. rewrite HW. by right.
  - intros r' R' E. apply (callback_lookup _ _ _ _ _ _ ER) in E as [[-> ->] | [Hne E]].
    + rewrite Haw, Hsu. eauto.
    + eauto.
  - intros p P r' EP Hr'. destruct (H5 p P r' EP Hr') as (HP & R' & ER' & HR').
    split; [done|].
    destruct (callback_lookup_old _ r s R r' R' ER ER') as (R'' & ER'' & Haw' & _).
    exists R''. split; [done | congruence].
  - intros r' s' Hj.
    assert (Hj' : Reaction r' s' ∈ jobs σ) by (rewrite Hjobs; by right).
    destruct (H6 r' s' Hj') as (R' & P & ER' & EP & HP).
    destruct (callback_lookup_old _ r s R r' R' ER ER') as (R'' & ER'' & Haw' & _).
    exists R'', P. split_and!; [done | congruence | done].
  - intros r' R' E Hs. apply (callback_lookup _ _ _ _ _ _ ER) in E as [[-> ->] | [Hne E]].
    + destruct (H6 r s Hhead) as (R' & P & ER' & EP & HP).
      assert (R' = R) as -> by congruence.
      exists P. rewrite Haw, Hout. done.
    + eauto.
Qed.

End JobFacts.

(** ** The store: timers and the promises of [fetchProducts] *)

Section TimerFacts.

Implicit Types (σ : Store) (p r t : nat) (s : settlement).

Lemma loaded_scheduled : scheduled loaded.
Proof.
  split; cbn [loaded promises timers products].
  - reflexivity.
  - intros t T E. by rewrite lookup_nil in E.
  - constructor.
  - intros p P q E. by rewrite lookup_nil in E.
Qed.

Lemma then_lookup p r σ p' Q' :
  promises (then_ p r σ) !! p' = Some Q' →
  ∃ Q, promises σ !! p' = Some Q ∧ settled Q' = settled Q ∧ origin Q' = origin Q.
Proof.
  unfold then_. destruct (promises σ !! p) as [P|] eqn:EP; [|eauto].
  destruct (settled P) eqn:HP; simpl; [eauto|].
  destruct (decide (p' = p)) as [->|Hne].
  - rewrite list_lookup_insert_eq by (by eapply lookup_lt_Some).
    intros [= <-]. exists P. by simpl.
  - rewrite list_lookup_insert_ne by done. eauto.
Qed.

Lemma then_lookup_old p r σ p' Q :
  promises σ !! p' = Some Q →
  ∃ Q', promises (then_ p r σ) !! p' = Some Q' ∧ settled Q' = settled Q ∧
        origin Q' = origin Q.
Proof.
  intros EQ. unfold then_. destruct (promises σ !! p) as [P|] eqn:EP; [|eauto].
  destruct (settled P) eqn:HP; simpl; [eauto|].
  destruct (decide (p' = p)) as [->|Hne].
  - rewrite list_lookup_insert_eq by (by eapply lookup_lt_Some).
    assert (Q = P) as -> by congruence. eexists. split; [done|]. by simpl.
  - rewrite list_lookup_insert_ne by done. eauto.
Qed.

Lemma then_rest p r σ :
  timers (then_ p r σ) = timers σ ∧ products (then_ p r σ) = products σ ∧
  resources (then_ p r σ) = resources σ.
Proof.
  unfold then_. destruct (promises σ !! p) as [P|]; [|done].
  by destruct (settled P).
Qed.

(** Changes of the promise table that keep the state and the origin of
    every promise of [fetchProducts] keep the timers meaningful. *)
Lemma scheduled_same_promises σ σ' :
  products σ' = products σ → timers σ' = timers σ →
  (∀ p Q, promises σ !! p = Some Q →
     ∃ Q', promises σ' !! p = Some Q' ∧ origin Q' = origin Q ∧
           (settled Q' = settled Q ∨ ∀ q, origin Q ≠ ByTimer q)) →
  (∀ p Q', promises σ' !! p = Some Q' →
     (∃ Q, promises σ !! p = Some Q ∧ settled Q' = settled Q ∧ origin Q' = origin Q)
     ∨ ∀ q, origin Q' ≠ ByTimer q) →
  scheduled σ → scheduled σ'.
Proof.
  intros Hprod Htim Hold Hnew [H1 H2 H3 H4].
  split; rewrite ?Hprod, ?Htim; try done.
  - intros t T ET. destruct (H2 t T ET) as (P & EP & HP & HO).
    destruct (Hold _ _ EP) as (Q' & EQ' & HO' & [HS' | Hno]).
    + exists Q'. split_and!; congruence.
    + by destruct (Hno (needle T)).
  - intros p Q' q EQ' HO'. destruct (Hnew _ _ EQ') as [(Q & EQ & HS & HO) | Hno].
    + rewrite HS. apply (H4 p Q q EQ). congruence.
    + by destruct (Hno q).
Qed.

Lemma alloc_scheduled o σ :
  (∀ q, o ≠ ByTimer q) → scheduled σ → scheduled (snd (alloc_promise o σ)).
Proof.
  intros Ho. apply scheduled_same_promises; cbn [alloc_promise snd with_promises
    promises products timers]; try done.
  - intros p Q EQ. exists Q. split; [|auto]. by apply lookup_app_l_Some.
  - intros p Q' EQ'. apply lookup_app_Some in EQ' as [E | [_ E]]; [eauto|].
    apply list_lookup_singleton_Some in E as [_ <-]. right. done.
Qed.

Lemma settle_scheduled p s σ :
  (∀ P q, promises σ !! p = Some P → origin P ≠ ByTimer q) →
  scheduled σ → scheduled (settle p s σ).
Proof.
  intros Hp. apply scheduled_same_promises.
  - apply settle_products.
  - apply settle_timers.
  - intros p' Q EQ.
    destruct (settle_lookup_old p s σ p' Q EQ) as (Q' & EQ' & HO & _ & Hne & _).
    exists Q'. split; [done|]. split; [done|].
    destruct (decide (p' = p)) as [->|Hne'].
    + right. intros q. by apply Hp.
    + left. by rewrite Hne.
  - intros p' Q' EQ'.
    destruct (settle_lookup p s σ p' Q' EQ') as (Q & EQ & HO & [-> | (-> & _)]).
    + left. eauto.
    + right. intros q. rewrite HO. by apply Hp.
Qed.

Lemma then_scheduled p r σ : scheduled σ → scheduled (then_ p r σ).
Proof.
  destruct (then_rest p r σ) as (Ht & Hp & _).
  apply scheduled_same_promises; try done.
  - intros p' Q EQ. destruct (then_lookup_old p r σ p' Q EQ) as (Q' & ? & ? & ?).
    eauto.
  - intros p' Q' EQ'. left. by apply (then_lookup p r).
Qed.

Lemma with_resources_scheduled f σ : scheduled σ → scheduled (with_resources f σ).
Proof. intros [H1 H2 H3 H4]. by split. Qed.

Lemma createResource_scheduled p σ : scheduled σ → scheduled (snd (createResource p σ)).
Proof.
  intros H. unfold createResource. cbn [alloc_promise snd].
  apply then_scheduled, with_resources_scheduled.
  by apply (alloc_scheduled (ByReaction (length (resources σ)))).
Qed.

Lemma fetchProducts_scheduled query σ :
  scheduled σ → scheduled (snd (fetchProducts query σ)).
Proof.
  intros [H1 H2 H3 H4]. unfold fetchProducts, alloc_promise, with_timers, with_promises.
  cbn [snd promises products timers resources jobs].
  set (q := normalize query). set (p := length (promises σ)).
  assert (Hold : ∀ t T, timers σ !! t = Some T → resolves T < p).
  { intros t T ET. destruct (H2 t T ET) as (P & EP & _). by eapply lookup_lt_Some. }
  split; cbn [promises products timers].
  - done.
  - intros t T ET. apply lookup_app_Some in ET as [ET | [_ ET]].
    + destruct (H2 t T ET) as (P & EP & HP). exists P. split; [|done].
      by apply lookup_app_l_Some.
    + apply list_lookup_singleton_Some in ET as [_ <-].
      eexists. split; [by apply list_lookup_middle | done].
  - rewrite List.map_app. apply NoDup_app. split; [done|]. split.
    + intros x Hx Hx'. cbn in Hx'. apply list_elem_of_singleton in Hx' as ->.
      apply list_elem_of_In, in_map_iff in Hx as (T & HT & Hin).
      apply list_elem_of_In, list_elem_of_lookup in Hin as [t ET].
      specialize (Hold t T ET). lia.
    + cbn. apply NoDup_singleton.
  - intros p' P q' EP HO. apply lookup_app_Some in EP as [EP | [Hge EP]].
    + destruct (H4 p' P q' EP HO) as [? | [? ?]]; [by left|].
      right. split; [done|]. apply elem_of_app. by left.
    + apply list_lookup_singleton_Some in EP as [Hp' <-]. cbn in HO.
      injection HO as <-. right. split; [done|].
      apply elem_of_app. right. apply list_elem_of_singleton.
      f_equal. unfold p. lia.
Qed.

Lemma fire_cases t σ σ' :
  fire t σ = Some σ' →
  ∃ T, timers σ !! t = Some T ∧
       σ' = settle (resolves T)
              (Fulfilled (VProducts (filtered (products σ) (needle T))))
              (with_timers (delete t) σ).
Proof.
  unfold fire. destruct (timers σ !! t) as [T|] eqn:E; [|done].
  intros [= <-]. eauto.
Qed.

Lemma fire_scheduled t σ σ' : fire t σ = Some σ' → scheduled σ → scheduled σ'.
Proof.
  intros Hfire [H1 H2 H3 H4].
  destruct (fire_cases t σ σ' Hfire) as (T & ET & ->).
  destruct (H2 t T ET) as (P & EP & HP & HO).
  set (v := Fulfilled (VProducts (filtered (products σ) (needle T)))).
  set (σ1 := with_timers (delete t) σ).
  assert (Hsub : sublist (delete t (timers σ)) (timers σ)) by apply sublist_delete.
  assert (Hother : ∀ t' T', delete t (timers σ) !! t' = Some T' →
            resolves T' ≠ resolves T ∧ ∃ t'', timers σ !! t'' = Some T').
  { intros t' T' ET'.
    rewrite <- (take_drop_middle _ _ _ ET), List.map_app in H3. cbn in H3.
    apply NoDup_app in H3 as (_ & Hl & Hr). apply NoDup_cons in Hr as [Hr _].
    rewrite delete_take_drop in ET'.
    apply lookup_app_Some in ET' as [ET' | [_ ET']].
    - split.
      + intros Heq. apply (Hl (resolves T)); [|left].
        rewrite <- Heq. apply list_elem_of_In, in_map, list_elem_of_In.
        by eapply list_elem_of_lookup_2.
      + apply lookup_take_Some in ET' as [ET' _]. eauto.
    - split.
      + intros Heq. apply Hr. rewrite <- Heq.
        apply list_elem_of_In, in_map, list_elem_of_In.
        by eapply list_elem_of_lookup_2.
      + rewrite lookup_drop in ET'. eauto. }
  destruct (settle_cases (resolves T) v σ1) as [(P' & EP' & _ & Hσ) | [Hset _]];
    [|by destruct (Hset P EP)].
  assert (P' = P) as -> by (cbn in EP'; congruence).
  rewrite Hσ. split; cbn [promises products timers with_timers σ1].
  - done.
  - intros t' T' ET'. destruct (Hother t' T' ET') as (Hne & t'' & ET'').
    destruct (H2 t'' T' ET'') as (Q & EQ & HQ).
    exists Q. split; [|done]. by rewrite list_lookup_insert_ne.
  - exact (sublist_NoDup _ _ H3 (fmap_sublist resolves _ _ Hsub)).
  - intros p Q q EQ HOQ. destruct (decide (p = resolves T)) as [->|Hne].
    + rewrite list_lookup_insert_eq in EQ by (by eapply lookup_lt_Some).
      injection EQ as <-. cbn in HOQ |- *. left.
      unfold v. rewrite H1. repeat f_equal. congruence.
    + rewrite list_lookup_insert_ne in EQ by done.
      destruct (H4 p Q q EQ HOQ) as [? | [HQ Hin]]; [by left|].
      right. split; [done|].
      apply list_elem_of_lookup in Hin as [t' ET'].
      assert (t' ≠ t) by (intros ->; rewrite ET in ET'; by injection ET' as ->).
      destruct (decide (t' < t)).
      * apply (list_elem_of_lookup_2 _ t'). by rewrite list_lookup_delete_lt.
      * apply (list_elem_of_lookup_2 _ (pred t')).
        rewrite list_lookup_delete_ge by lia. by replace (S (pred t')) with t' by lia.
Qed.

End TimerFacts.

(** ** Every reachable store is well formed *)

Section Steps.

Implicit Types (σ : Store) (p r t : nat) (s : settlement).

Lemma by_caller_origin p σ P :
  by_caller p σ = true → promises σ !! p = Some P → origin P = ByCaller.
Proof.
  unfold by_caller. intros H E. rewrite E in H. by destruct (origin P).
Qed.

Lemma fire_consistent t σ σ' : fire t σ = Some σ' → consistent σ → consistent σ'.
Proof.
  intros Hfire H. destruct (fire_cases t σ σ' Hfire) as (T & _ & ->).
  by apply settle_consistent, with_timers_consistent.
Qed.

Lemma run_job_scheduled σ σ' :
  run_job σ = Some σ' → consistent σ → scheduled σ → scheduled σ'.
Proof.
  intros Hrun Hc [H1 H2 H3 H4].
  destruct (run_job_cases σ σ' Hrun) as (r & s & rest & R & Hjobs & ER & ->).
  destruct (c_awaited σ Hc r R ER) as (_ & S & ES & HS).
  apply settle_scheduled.
  - cbn [promises]. intros P q EP. assert (P = S) as -> by congruence.
    by rewrite HS.
  - by split.
Qed.

Lemma step_well_formed a σ σ' : step a σ = Some σ' → well_formed σ → well_formed σ'.
Proof.
  intros Hstep [Hc Hs]. destruct a as [|p v|p e|query|p|t|]; cbn [step] in Hstep.
  - injection Hstep as <-. split.
    + by apply alloc_consistent.
    + by apply alloc_scheduled.
  - destruct (by_caller p σ) eqn:Hby; [|done].
    destruct (negb (is_promise v)); [|done]. injection Hstep as <-. split.
    + by apply settle_consistent.
    + apply settle_scheduled; [|done]. intros P q EP.
      by rewrite (by_caller_origin p σ P Hby EP).
  - destruct (by_caller p σ) eqn:Hby; [|done]. injection Hstep as <-. split.
    + by apply settle_consistent.
    + apply settle_scheduled; [|done]. intros P q EP.
      by rewrite (by_caller_origin p σ P Hby EP).
  - injection Hstep as <-. split.
    + unfold fetchProducts. cbn [alloc_promise snd].
      by apply with_timers_consistent, (alloc_consistent (ByTimer (normalize query))).
    + by apply fetchProducts_scheduled.
  - destruct (decide (p < length (promises σ))) as [Hp|]; [|done].
    injection Hstep as <-. split.
    + by apply createResource_consistent.
    + by apply createResource_scheduled.
  - split; [by eapply fire_consistent | by eapply fire_scheduled].
  - split; [by eapply run_job_consistent | by eapply run_job_scheduled].
Qed.

Lemma run_well_formed l σ σ' : run l σ = Some σ' → well_formed σ → well_formed σ'.
Proof.
  revert σ. induction l as [|a l IH]; intros σ; cbn [run].
  - by intros [= <-].
  - destruct (step a σ) as [σ1|] eqn:E; [|done].
    intros Hrun Hwf. apply (IH σ1 Hrun). by eapply step_well_formed.
Qed.

Lemma reachable_well_formed σ : reachable σ → well_formed σ.
Proof.
  intros [l Hl]. apply (run_well_formed l loaded σ Hl).
  split; [apply loaded_consistent | apply loaded_scheduled].
Qed.

Lemma run_app l1 l2 σ :
  run (l1 ++ l2) σ = match run l1 σ with Some σ1 => run l2 σ1 | None => None end.
Proof.
  revert σ. induction l1 as [|a l1 IH]; intros σ; cbn [run app]; [done|].
  by destruct (step a σ).
Qed.

Lemma reachable_run l σ σ' : reachable σ → run l σ = Some σ' → reachable σ'.
Proof. intros [l0 H0] H. exists (l0 ++ l). by rewrite run_app, H0. Qed.

Lemma extends_refl σ : extends σ σ.
Proof. split_and!; [intros p P E | intros r R E |]; eauto 10. Qed.

Lemma extends_trans σ1 σ2 σ3 : extends σ1 σ2 → extends σ2 σ3 → extends σ1 σ3.
Proof.
  intros (HP1 & HR1 & HC1) (HP2 & HR2 & HC2). split_and!.
  - intros p P E. destruct (HP1 p P E) as (P' & E' & HO' & HS').
    destruct (HP2 p P' E') as (P'' & E'' & HO'' & HS'').
    exists P''. split_and!; [done | congruence |].
    destruct HS' as [? | HS']; [by left|]. rewrite <- HS'.
    destruct HS'' as [HS'' | ?]; [|by right].
    left. congruence.
  - intros r R E. destruct (HR1 r R E) as (R' & E' & HA' & HU' & HS').
    destruct (HR2 r R' E') as (R'' & E'' & HA'' & HU'' & HS'').
    exists R''. split_and!; [done | congruence | congruence |].
    destruct HS' as [? | ->]; [by left | done].
  - congruence.
Qed.

Lemma extends_alloc o σ : extends σ (snd (alloc_promise o σ)).
Proof.
  split_and!; cbn [alloc_promise snd with_promises promises resources products].
  - intros p P E. exists P. split; [by apply lookup_app_l_Some | auto].
  - intros r R E. eauto 10.
  - done.
Qed.

Lemma extends_settle p s σ : extends σ (settle p s σ).
Proof.
  split_and!; rewrite ?settle_resources, ?settle_products; [| |done].
  - intros p' P E.
    destruct (settle_lookup_old p s σ p' P E) as (P' & E' & HO & HS & _).
    eauto.
  - intros r R E. eauto 10.
Qed.

Lemma extends_then p r σ : extends σ (then_ p r σ).
Proof.
  destruct (then_rest p r σ) as (_ & Hprod & Hres).
  split_and!; rewrite ?Hres; [| |done].
  - intros p' P E.
    destruct (then_lookup_old p r σ p' P E) as (P' & E' & HS & HO). eauto.
  - intros r' R E. eauto 10.
Qed.

Lemma extends_step a σ σ' : step a σ = Some σ' → consistent σ → extends σ σ'.
Proof.
  intros Hstep Hc. destruct a as [|p v|p e|query|p|t|]; cbn [step] in Hstep.
  - injection Hstep as <-. apply extends_alloc.
  - destruct (by_caller p σ && negb (is_promise v)); [|done].
    injection Hstep as <-. apply extends_settle.
  - destruct (by_caller p σ); [|done]. injection Hstep as <-. apply extends_settle.
  - injection Hstep as <-. unfold fetchProducts. cbn [alloc_promise snd].
    eapply extends_trans; [apply (extends_alloc (ByTimer (normalize query)))|].
    split_and!; [intros p P E | intros r R E |]; eauto 10.
  - destruct (decide (p < length (promises σ))); [|done].
    injection Hstep as <-. unfold createResource. cbn [alloc_promise snd].
    eapply extends_trans; [apply (extends_alloc (ByReaction (length (resources σ))))|].
    eapply extends_trans; [|apply extends_then].
    split_and!; cbn [with_resources with_promises promises resources products].
    + intros p' P E. eauto.
    + intros r R E. exists R. split; [by apply lookup_app_l_Some | auto].
    + done.
  - destruct (fire_cases t σ σ' Hstep) as (T & _ & ->).
    eapply extends_trans; [|apply extends_settle].
    split_and!; [intros p P E | intros r R E |]; eauto 10.
  - destruct (run_job_cases σ σ' Hstep) as (r & s & rest & R & Hjobs & ER & ->).
    eapply extends_trans; [|apply extends_settle].
    split_and!; cbn [promises resources products]; [eauto | | done].
    intros r' R' E'.
    destruct (callback_lookup_old _ r s R r' R' ER E') as (R'' & E'' & HA & HU).
    exists R''. split_and!; try done.
    apply (callback_lookup _ _ _ _ _ _ ER) in E'' as [[-> ->] | [Hne E'']].
    + left. assert (R' = R) as -> by congruence.
      apply (c_pending σ Hc r R ER). unfold waiting. rewrite Hjobs.
      apply elem_of_app. right. left.
    + right. congruence.
Qed.

Lemma extends_run l σ σ' : run l σ = Some σ' → well_formed σ → extends σ σ'.
Proof.
  revert σ. induction l as [|a l IH]; intros σ; cbn [run].
  - intros [= <-] _. apply extends_refl.
  - destruct (step a σ) as [σ1|] eqn:E; [|done].
    intros Hrun Hwf. eapply extends_trans.
    + apply (extends_step a σ σ1 E). apply Hwf.
    + apply (IH σ1 Hrun). by eapply step_well_formed.
Qed.

End Steps.

(** ** What [read()] says, and when *)

Section ReadFacts.

Implicit Types (σ : Store) (p r t : nat) (s : settlement).

Lemma waiting_elem r σ :
  r ∈ waiting σ →
  (∃ p P, promises σ !! p = Some P ∧ r ∈ reactions P) ∨ (∃ s, Reaction r s ∈ jobs σ).
Proof.
  unfold waiting. rewrite elem_of_app. intros [H | H].
  - left. apply list_elem_of_In, in_concat in H as (l & Hl & Hr).
    apply in_map_iff in Hl as (P & <- & HP).
    apply list_elem_of_In, list_elem_of_lookup in HP as [p EP].
    exists p, P. by rewrite list_elem_of_In.
  - right. apply list_elem_of_In, in_map_iff in H as ([r' s] & <- & Hj).
    exists s. by apply list_elem_of_In.
Qed.

(** A cell still [pending] although its promise is settled has its callback
    in the job queue. *)
Lemma pending_settled_queued σ r R P s :
  consistent σ → resources σ !! r = Some R → promises σ !! awaited R = Some P →
  status R = pending → settled P = Some s → Reaction r s ∈ jobs σ.
Proof.
  intros Hc ER EP Hst HP.
  apply (c_pending σ Hc r R ER), waiting_elem in Hst
    as [(p' & P' & EP' & Hr) | (s' & Hj)].
  - destruct (c_reaction σ Hc p' P' r EP' Hr) as (HP' & R' & ER' & <-).
    assert (R' = R) as -> by congruence. congruence.
  - destruct (c_job σ Hc r s' Hj) as (R' & P' & ER' & EP' & HP').
    assert (R' = R) as -> by congruence. congruence.
Qed.

Lemma settled_read σ r R P s :
  consistent σ → resources σ !! r = Some R → promises σ !! awaited R = Some P →
  status R ≠ pending → settled P = Some s → read r σ = Some (reflects s).
Proof.
  intros Hc ER EP Hst HP.
  destruct (c_outcome σ Hc r R ER Hst) as (P' & EP' & HP').
  assert (P' = P) as -> by congruence.
  unfold read. rewrite ER. f_equal.
  unfold outcome in HP'. rewrite HP in HP'.
  destruct (status R); [done | injection HP' as -> | injection HP' as ->]; done.
Qed.

End ReadFacts.

Section Progress.

Implicit Types (σ : Store) (p r t : nat) (s : settlement).

Lemma settle_jobs_prefix p s σ : ∃ extra, jobs (settle p s σ) = jobs σ ++ extra.
Proof.
  destruct (settle_cases p s σ) as [(P & _ & _ & ->) | [_ ->]]; cbn [jobs]; [eauto|].
  exists []. by rewrite app_nil_r.
Qed.

(** A queued callback runs after the jobs queued before it, and from then on
    [read()] reflects the settlement. *)
Lemma queued_runs i σ r s :
  well_formed σ → jobs σ !! i = Some (Reaction r s) →
  ∃ σ', run (replicate (S i) RunJob) σ = Some σ' ∧ read r σ' = Some (reflects s).
Proof.
  revert σ. induction i as [|i IH]; intros σ Hwf Hi.
  - destruct (jobs σ) as [|j rest] eqn:Hjobs; [done|]. injection Hi as ->.
    destruct (c_job σ (proj1 Hwf) r s) as (R & P & ER & _); [rewrite Hjobs; left|].
    eexists. cbn [replicate run step]. unfold run_job. rewrite Hjobs, ER.
    split; [done|].
    unfold read. rewrite settle_resources. cbn [resources with_jobs with_resources].
    rewrite list_lookup_insert_eq by (by eapply lookup_lt_Some).
    by destruct s.
  - destruct (jobs σ) as [|[r1 s1] rest] eqn:Hjobs; [done|]. cbn in Hi.
    destruct (c_job σ (proj1 Hwf) r1 s1) as (R1 & P1 & ER1 & _); [rewrite Hjobs; left|].
    assert (Hstep : step RunJob σ =
              Some (settle (suspender R1) (Fulfilled VUndefined)
                      (mkStore (promises σ) (<[r1 := callback s1 R1]> (resources σ))
                               (timers σ) rest (products σ)))).
    { cbn [step]. unfold run_job. by rewrite Hjobs, ER1. }
    change (replicate (S (S i)) RunJob) with (RunJob :: replicate (S i) RunJob).
    cbn [run]. rewrite Hstep. apply IH.
    + by eapply step_well_formed.
    + destruct (settle_jobs_prefix (suspender R1) (Fulfilled VUndefined)
        (mkStore (promises σ) (<[r1 := callback s1 R1]> (resources σ))
                 (timers σ) rest (products σ))) as [extra ->].
      cbn [jobs]. by apply lookup_app_l_Some.
Qed.

(** A timer that is set can fire, and firing it fulfils its promise with the
    filtered catalog. *)
Lemma fire_fulfils σ t T :
  scheduled σ → timers σ !! t = Some T →
  ∃ σ', fire t σ = Some σ' ∧
        promise_state (resolves T) σ' =
          Some (Some (Fulfilled (VProducts (filtered ALL_PRODUCTS (needle T))))).
Proof.
  intros [H1 H2 H3 H4] ET. destruct (H2 t T ET) as (P & EP & HP & HO).
  unfold fire. rewrite ET. eexists. split; [done|].
  set (σ1 := with_timers (delete t) σ).
  destruct (settle_cases (resolves T)
              (Fulfilled (VProducts (filtered (products σ) (needle T)))) σ1)
    as [(P' & EP' & _ & ->) | [Hset _]]; [|by destruct (Hset P EP)].
  unfold promise_state. cbn [promises].
  rewrite list_lookup_insert_eq by (by eapply lookup_lt_Some).
  cbn. by rewrite H1.
Qed.

(** The promise that [fetchProducts] returns is new and is the timer's. *)
Lemma fetchProducts_promise query σ :
  fst (fetchProducts query σ) = length (promises σ) ∧
  promises (snd (fetchProducts query σ)) !! length (promises σ)
    = Some (mkPromise None [] (ByTimer (normalize query))).
Proof.
  unfold fetchProducts. cbn [alloc_promise fst snd with_timers with_promises promises].
  split; [done|]. by apply list_lookup_middle.
Qed.

(** At any later moment that promise is either fulfilled with the filtered
    catalog, or unsettled with its timer still set. *)
Lemma fetched_promise σ0 query l σ :
  reachable σ0 → run l (snd (fetchProducts query σ0)) = Some σ →
  ∃ P, promises σ !! fst (fetchProducts query σ0) = Some P ∧
       origin P = ByTimer (normalize query) ∧
       (settled P = Some (Fulfilled (VProducts
                            (filtered ALL_PRODUCTS (normalize query)))) ∨
        (settled P = None ∧
         mkTimer (fst (fetchProducts query σ0)) (normalize query) ∈ timers σ)).
Proof.
  intros H0 Hrun.
  assert (Hwf1 : well_formed (snd (fetchProducts query σ0))).
  { apply (step_well_formed (FetchProducts query) σ0); [done|].
    by apply reachable_well_formed. }
  destruct (fetchProducts_promise query σ0) as [-> E1].
  destruct (extends_run l _ σ Hrun Hwf1) as (HP & _).
  destruct (HP _ _ E1) as (P & EP & HO & _).
  exists P. split; [done|]. split; [done|].
  apply (t_fetch σ (proj2 (run_well_formed l _ σ Hrun Hwf1)) _ P); done.
Qed.

End Progress.

(** ** The catalog source: what [fetchProducts] resolves to *)

Lemma ALL_PRODUCTS_length : length ALL_PRODUCTS = 250.
Proof. by rewrite ALL_PRODUCTS_unfold, length_map, length_seq. Qed.

(** C1. For every query, the promise of [fetchProducts(query)] does get
    fulfilled (its timer stays set until it fires, and firing fulfils it),
    and the list it is fulfilled with is the one subsequence of the catalog,
    in catalog order, that holds exactly the records whose lower-cased title
    or brand contains the trimmed, lower-cased query; for the empty query
    this is the whole catalog of 250 records. *)
Theorem fetchProducts_resolves_to_selection σ0 query l σ :
  reachable σ0 →
  run l (snd (fetchProducts query σ0)) = Some σ →
  ∃ found,
    selected_by query found ∧
    (∀ other, selected_by query other → other = found) ∧
    (query = [] → found = ALL_PRODUCTS ∧ length found = 250) ∧
    (promise_state (fst (fetchProducts query σ0)) σ
       = Some (Some (Fulfilled (VProducts found)))
     ∨ (promise_state (fst (fetchProducts query σ0)) σ = Some None ∧
        ∃ t σ', fire t σ = Some σ' ∧
                promise_state (fst (fetchProducts query σ0)) σ'
                  = Some (Some (Fulfilled (VProducts found))))).
Proof.
  intros H0 Hrun. exists (filtered ALL_PRODUCTS (normalize query)).
  split; [apply filtered_selected|]. split; [apply selected_by_unique|]. split.
  - intros ->. rewrite filtered_empty_query. split; [done | apply ALL_PRODUCTS_length].
  - destruct (fetched_promise σ0 query l σ H0 Hrun) as (P & EP & HO & [HP | [HP Hin]]).
    + left. unfold promise_state. by rewrite EP, <- HP.
    + right. split; [unfold promise_state; by rewrite EP, <- HP|].
      apply list_elem_of_lookup in Hin as [t ET]. exists t.
      assert (Hs : scheduled σ).
      { eapply run_well_formed; [exact Hrun|].
        apply (step_well_formed (FetchProducts query) σ0); [done|].
        by apply reachable_well_formed. }
      destruct (fire_fulfils σ t _ Hs ET) as (σ' & Hfire & Hst). eauto.
Qed.

Lemma fetchProducts_resolves_to_selection_witness :
  ∃ found,
    selected_by (lit " Knife ") found ∧
    (∀ other, selected_by (lit " Knife ") other → other = found) ∧
    (lit " Knife " = [] → found = ALL_PRODUCTS ∧ length found = 250) ∧
    (promise_state (fst (fetchProducts (lit " Knife ") loaded)) knife_fetched
       = Some (Some (Fulfilled (VProducts found)))
     ∨ (promise_state (fst (fetchProducts (lit " Knife ") loaded)) knife_fetched
          = Some None ∧
        ∃ t σ', fire t knife_fetched = Some σ' ∧
                promise_state (fst (fetchProducts (lit " Knife ") loaded)) σ'
                  = Some (Some (Fulfilled (VProducts found))))).
Proof.
  apply (fetchProducts_resolves_to_selection loaded (lit " Knife ") [Fire 0]).
  - exists []. reflexivity.
  - vm_compute. reflexivity.
Defined.

(** ** The resource: [createResource] and [read()] *)

Lemma wrapped_after_fulfilment_run :
  run [NewPromise; Resolve 0 (VNumber 1); CreateResource 0] loaded
  = Some wrapped_after_fulfilment.
Proof. reflexivity. Qed.

Lemma wrapped_and_notified_run :
  run [RunJob] wrapped_after_fulfilment = Some wrapped_and_notified.
Proof. reflexivity. Qed.

(** C2, as stated, fails: a resource made from a promise that is already
    fulfilled throws its suspender when read before the promise job ran,
    although the promise is fulfilled. *)
Lemma read_of_fulfilled_promise_throws :
  run [NewPromise; Resolve 0 (VNumber 1); CreateResource 0] loaded
    = Some wrapped_after_fulfilment ∧
  (awaited <$> resources wrapped_after_fulfilment !! 0) = Some 0 ∧
  promise_state 0 wrapped_after_fulfilment = Some (Some (Fulfilled (VNumber 1))) ∧
  read 0 wrapped_after_fulfilment = Some (Throw (VPromise 1)).
Proof. repeat split. Qed.

(** C2, amended. For every resource of a reachable store: while the awaited
    promise is unsettled [read()] throws the suspender; [read()] returns a
    value only if the promise was fulfilled with that value; once the promise
    is settled and the callback of the resource has run, [read()] returns
    the fulfilment value or throws the rejection reason; and while the
    promise is settled but the callback is still queued, [read()] throws the
    suspender, and running the queued jobs brings the store to the former
    case. *)
Theorem read_reflects_settlement_after_callback σ r R :
  reachable σ → resources σ !! r = Some R →
  ∃ P, promises σ !! awaited R = Some P ∧
    (settled P = None → read r σ = Some (Throw (VPromise (suspender R)))) ∧
    (∀ v, read r σ = Some (Return v) → settled P = Some (Fulfilled v)) ∧
    (∀ s, settled P = Some s →
       (status R ≠ pending ∧ read r σ = Some (reflects s)) ∨
       (status R = pending ∧ read r σ = Some (Throw (VPromise (suspender R))) ∧
        ∃ n σ', run (replicate n RunJob) σ = Some σ' ∧
                read r σ' = Some (reflects s))).
Proof.
  intros Hreach ER. assert (Hwf := reachable_well_formed σ Hreach).
  destruct Hwf as [Hc Hs].
  destruct (c_awaited σ Hc r R ER) as (Hlt & _).
  destruct (lookup_lt_is_Some_2 _ _ Hlt) as [P EP].
  exists P. split; [done|].
  assert (Hread : status R = pending → read r σ = Some (Throw (VPromise (suspender R)))).
  { intros Hst. unfold read. by rewrite ER, Hst. }
  split_and!.
  - intros HP. apply Hread. destruct (decide (status R = pending)) as [|Hst]; [done|].
    destruct (c_outcome σ Hc r R ER Hst) as (P' & EP' & HP').
    assert (P' = P) as -> by congruence.
    rewrite HP in HP'. unfold outcome in HP'. by destruct (status R).
  - intros v Hv. unfold read in Hv. rewrite ER in Hv.
    destruct (status R) eqn:Hst; try done. injection Hv as <-.
    destruct (c_outcome σ Hc r R ER) as (P' & EP' & HP'); [by rewrite Hst|].
    assert (P' = P) as -> by congruence.
    rewrite HP'. unfold outcome. by rewrite Hst.
  - intros s HP. destruct (decide (status R = pending)) as [Hst|Hst].
    + right. split; [done|]. split; [auto|].
      assert (Hq := pending_settled_queued σ r R P s Hc ER EP Hst HP).
      apply list_elem_of_lookup in Hq as [i Hi].
      destruct (queued_runs i σ r s (conj Hc Hs) Hi) as (σ' & Hrun & Hr).
      eauto.
    + left. split; [done|]. by eapply settled_read.
Qed.

Lemma read_reflects_settlement_after_callback_witness :
  ∃ P, promises wrapped_after_fulfilment !! 0 = Some P ∧
    (settled P = None →
       read 0 wrapped_after_fulfilment = Some (Throw (VPromise 1))) ∧
    (∀ v, read 0 wrapped_after_fulfilment = Some (Return v) →
          settled P = Some (Fulfilled v)) ∧
    (∀ s, settled P = Some s →
       (pending ≠ pending ∧ read 0 wrapped_after_fulfilment = Some (reflects s)) ∨
       (pending = pending ∧
        read 0 wrapped_after_fulfilment = Some (Throw (VPromise 1)) ∧
        ∃ n σ', run (replicate n RunJob) wrapped_after_fulfilment = Some σ' ∧
                read 0 σ' = Some (reflects s))).
Proof.
  apply (read_reflects_settlement_after_callback wrapped_after_fulfilment 0
           (mkResource pending VUndefined 1 0)).
  - exists [NewPromise; Resolve 0 (VNumber 1); CreateResource 0]. reflexivity.
  - reflexivity.
Defined.

(** C3. A resource is write-once.  At every moment exactly one pair of its
    callbacks is outstanding while its status is [pending] and none
    afterwards (its promise is awaited once, and answers once); once the
    status has left [pending], whatever happens next leaves the cell as it
    is, so that any later [read()] returns the same value or throws the same
    reason as an earlier one. *)
Theorem resource_is_write_once σ l σ' r R :
  reachable σ → run l σ = Some σ' → resources σ !! r = Some R →
  count_occ Nat.eq_dec (waiting σ) r = (if decide (status R = pending) then 1 else 0) ∧
  (status R ≠ pending → resources σ' !! r = Some R ∧ read r σ' = read r σ).
Proof.
  intros Hreach Hrun ER. assert (Hwf := reachable_well_formed σ Hreach).
  destruct Hwf as [Hc Hs]. split.
  - destruct (decide (status R = pending)) as [Hst|Hst].
    + apply NoDup_count_occ'; [apply NoDup_ListNoDup, (c_once σ Hc)|].
      apply list_elem_of_In. by apply (c_pending σ Hc r R ER).
    + apply count_occ_not_In. rewrite <- list_elem_of_In.
      by rewrite <- (c_pending σ Hc r R ER).
  - intros Hst.
    destruct (extends_run l σ σ' Hrun (conj Hc Hs)) as (_ & HR & _).
    destruct (HR r R ER) as (R' & ER' & _ & _ & [? | ->]); [done|].
    split; [done|]. unfold read. by rewrite ER, ER'.
Qed.

Lemma resource_is_write_once_witness :
  count_occ Nat.eq_dec (waiting wrapped_and_notified) 0
    = (if decide (success = pending) then 1 else 0) ∧
  (success ≠ pending →
   resources wrapped_and_notified_later !! 0
     = Some (mkResource success (VNumber 1) 1 0) ∧
   read 0 wrapped_and_notified_later = read 0 wrapped_and_notified).
Proof.
  apply (resource_is_write_once wrapped_and_notified [FetchProducts []; Fire 0]
           wrapped_and_notified_later 0 (mkResource success (VNumber 1) 1 0)).
  - exists [NewPromise; Resolve 0 (VNumber 1); CreateResource 0; RunJob]. reflexivity.
  - vm_compute. reflexivity.
  - reflexivity.
Defined.

(** C7. The promise of [fetchProducts(query)] is never rejected: at every
    later moment it is fulfilled, or unsettled with a timer whose firing
    fulfils it.  So a resource made from it never has status [error], and
    the only thing its [read()] ever throws is its suspender. *)
Theorem fetchProducts_never_rejects σ0 query l σ :
  reachable σ0 →
  run l (snd (fetchProducts query σ0)) = Some σ →
  (∀ e, promise_state (fst (fetchProducts query σ0)) σ ≠ Some (Some (Rejected e))) ∧
  (promise_state (fst (fetchProducts query σ0)) σ = Some None →
   ∃ t σ' v, fire t σ = Some σ' ∧
             promise_state (fst (fetchProducts query σ0)) σ' = Some (Some (Fulfilled v))) ∧
  (∀ r R, resources σ !! r = Some R → awaited R = fst (fetchProducts query σ0) →
     status R ≠ error ∧
     ∀ x, read r σ = Some (Throw x) →
          status R = pending ∧ x = VPromise (suspender R)).
Proof.
  intros H0 Hrun.
  destruct (fetched_promise σ0 query l σ H0 Hrun) as (P & EP & HO & HP).
  assert (Hwf : well_formed σ).
  { eapply run_well_formed; [exact Hrun|].
    apply (step_well_formed (FetchProducts query) σ0); [done|].
    by apply reachable_well_formed. }
  destruct Hwf as [Hc Hs].
  assert (Hnot : ∀ e, settled P ≠ Some (Rejected e)).
  { intros e. destruct HP as [-> | [-> _]]; done. }
  assert (Hne : ∀ r R, resources σ !! r = Some R →
                 awaited R = fst (fetchProducts query σ0) → status R ≠ error).
  { intros r R ER HA Hst.
    destruct (c_outcome σ Hc r R ER) as (P' & EP' & HP'); [by rewrite Hst|].
    rewrite HA in EP'. assert (P' = P) as -> by congruence.
    unfold outcome in HP'. rewrite Hst in HP'. by destruct (Hnot (result R)). }
  split_and!.
  - intros e. unfold promise_state. rewrite EP. cbn. intros [= He].
    by destruct (Hnot e).
  - intros Hp. destruct HP as [HP | [HP Hin]].
    + unfold promise_state in Hp. rewrite EP in Hp. cbn in Hp. congruence.
    + apply list_elem_of_lookup in Hin as [t ET].
      destruct (fire_fulfils σ t _ Hs ET) as (σ' & Hfire & Hst). eauto.
  - intros r R ER HA. split; [by apply (Hne r R)|].
    intros x Hx. unfold read in Hx. rewrite ER in Hx.
    destruct (status R) eqn:Hst; try done.
    + by injection Hx as <-.
    + by destruct (Hne r R ER HA).
Qed.

(** ** The application *)

Section AppFacts.

Implicit Types (s : App) (σ : Store) (r p : nat).

Lemma createResource_fetchProducts next σ :
  createResource (fst (fetchProducts next σ)) (snd (fetchProducts next σ)) =
    (length (resources σ), after_fetch next σ).
Proof.
  unfold after_fetch, createResource, fetchProducts, alloc_promise, then_,
    with_promises, with_resources, with_timers.
  simpl. rewrite <- !app_assoc. simpl.
  rewrite list_lookup_middle by done. simpl.
  rewrite length_app. simpl.
  replace (length (promises σ) + 1) with (S (length (promises σ))) by lia.
  rewrite insert_app_r_alt by done. rewrite Nat.sub_diag. done.
Qed.

Lemma handleChange_unfold next s :
  handleChange next s =
    mkApp (after_fetch next (store s)) next (resource s)
          (Some (length (resources (store s)))) (boundary s)
          (deferredQuery s) (panel s) (reads s).
Proof.
  unfold handleChange.
  assert (H := createResource_fetchProducts next (store s)).
  destruct (fetchProducts next (store s)) as [p σ1]. cbn [fst snd] in H.
  by rewrite H.
Qed.

Lemma handleChange_run next s :
  run [FetchProducts next; CreateResource (length (promises (store s)))] (store s)
  = Some (store (handleChange next s)).
Proof.
  rewrite handleChange_unfold. cbn [run step store].
  assert (H := createResource_fetchProducts next (store s)).
  assert (Hp : fst (fetchProducts next (store s)) = length (promises (store s)))
    by apply fetchProducts_promise.
  rewrite Hp in H. rewrite H. cbn [snd].
  rewrite decide_True; [done|].
  unfold fetchProducts. cbn. rewrite length_app. cbn. lia.
Qed.

End AppFacts.

Section AppInvariant.

Implicit Types (s : App) (σ : Store) (r p : nat).

Lemma render_fields s :
  store (render s) = store s ∧ query (render s) = query s ∧
  resource (render s) = resource s ∧ transition (render s) = transition s ∧
  deferredQuery (render s) = deferredQuery s ∧
  ((panel (render s) = panel s ∧ boundary (render s) = boundary s ∧
    reads (render s) = reads s ∧ read (resource s) (store s) = None) ∨
   (∃ data, read (resource s) (store s) = Some data ∧
            panel (render s) = view (boundary s) data (deferredQuery s) ∧
            reads (render s) =
              reads s ++ (if truthy (boundary s) then [] else [resource s]))).
Proof.
  unfold render, render_with, view.
  destruct (read (resource s) (store s)) as [data|]; cbn.
  - destruct (ErrorBoundary _ _) as [b v] eqn:EB. cbn. split_and!; try done.
    right. exists data. by rewrite EB.
  - split_and!; try done. left. by rewrite app_nil_r.
Qed.

Lemma app_inv_same s s' :
  store s' = store s → resource s' = resource s → transition s' = transition s →
  app_inv s → app_inv s'.
Proof. intros Hσ Hr Ht [H1 H2 H3 H4]. split; rewrite ?Hσ, ?Hr, ?Ht; done. Qed.

Lemma fetch_only_after next σ : fetch_only σ → fetch_only (after_fetch next σ).
Proof.
  intros H r R E. unfold after_fetch in *. cbn [resources promises] in *.
  apply lookup_app_Some in E as [E | [_ E]].
  - destruct (H r R E) as (P & q & EP & HO). exists P, q.
    split; [by apply lookup_app_l_Some | done].
  - apply list_lookup_singleton_Some in E as [_ <-]. cbn [awaited].
    eexists _, _. split; [by apply list_lookup_middle | done].
Qed.

Lemma fetch_only_env σ σ' :
  consistent σ → (∃ t, fire t σ = Some σ') ∨ run_job σ = Some σ' →
  fetch_only σ → fetch_only σ'.
Proof.
  intros Hc Hstep H r R' E'.
  assert (∃ R, resources σ !! r = Some R ∧ awaited R' = awaited R) as (R & E & ->).
  { destruct Hstep as [[t Hf] | Hj].
    - destruct (fire_cases t σ σ' Hf) as (T & _ & ->).
      rewrite settle_resources in E'. eauto.
    - destruct (run_job_cases σ σ' Hj) as (r0 & s0 & rest & R0 & _ & ER0 & ->).
      rewrite settle_resources in E'. cbn [resources] in E'.
      apply (callback_lookup _ _ _ _ _ _ ER0) in E' as [[-> ->] | [_ E']]; [|eauto].
      exists R0. split; [done | by destruct s0]. }
  destruct (H r R E) as (P & q & EP & HO).
  assert (Hext : extends σ σ').
  { destruct Hstep as [[t Hf] | Hj].
    - by apply (extends_step (Fire t)).
    - by apply (extends_step RunJob). }
  destruct Hext as (HP & _). destruct (HP _ P EP) as (P' & EP' & HO' & _).
  exists P', q. split; [done | congruence].
Qed.

Lemma mount_unfold :
  mount = render (mkApp (after_fetch [] loaded) [] 0 None VNull [] Blank []).
Proof. reflexivity. Qed.

Lemma mount_inv : app_inv mount.
Proof.
  rewrite mount_unfold. eapply app_inv_same; try apply render_fields.
  split; cbn [store resource transition].
  - exists [FetchProducts []; CreateResource 0]. reflexivity.
  - apply fetch_only_after. intros r R E. unfold loaded in E.
    cbn [resources] in E. by rewrite lookup_nil in E.
  - cbn. lia.
  - done.
Qed.

Lemma resources_grow e s s' :
  app_step e s = Some s' → app_inv s →
  length (resources (store s)) ≤ length (resources (store s')).
Proof.
  intros Hstep Hinv.
  assert (Hrender := render_fields).
  destruct e; cbn [app_step] in Hstep;
    try (destruct (mounted s); [|done]).
  - injection Hstep as <-. rewrite handleChange_unfold. cbn.
    rewrite length_app. lia.
  - unfold commit in Hstep. destruct (transition s); [|done].
    injection Hstep as <-. by rewrite (proj1 (Hrender _)).
  - injection Hstep as <-. by rewrite (proj1 (Hrender _)).
  - unfold render_transition in Hstep. destruct (transition s); [|done].
    destruct (render_with _ _) as [[? ?] ?]. by injection Hstep as <-.
  - by injection Hstep as <-.
  - destruct (retry_offered s); [|done]. by injection Hstep as <-.
  - destruct (fire t (store s)) as [σ'|] eqn:Hf; [|done]. injection Hstep as <-.
    destruct (fire_cases _ _ _ Hf) as (T & _ & ->). cbn.
    by rewrite settle_resources.
  - destruct (run_job (store s)) as [σ'|] eqn:Hj; [|done]. injection Hstep as <-.
    destruct (run_job_cases _ _ Hj) as (r0 & s0 & rest & R0 & _ & _ & ->). cbn.
    rewrite settle_resources. cbn. by rewrite length_insert.
Qed.

Lemma app_step_inv e s s' : app_step e s = Some s' → app_inv s → app_inv s'.
Proof.
  intros Hstep Hinv. assert (Hlen := resources_grow e s s' Hstep Hinv).
  destruct Hinv as [H1 H2 H3 H4].
  assert (Hwf := reachable_well_formed _ H1).
  destruct e; cbn [app_step] in Hstep;
    try (destruct (mounted s); [|done]).
  - injection Hstep as <-. split.
    + eapply reachable_run; [exact H1 | apply handleChange_run].
    + rewrite handleChange_unfold. by apply fetch_only_after.
    + rewrite handleChange_unfold in *. cbn in *. lia.
    + rewrite handleChange_unfold in *. cbn in *. intros r [= <-].
      rewrite length_app. cbn. lia.
  - unfold commit in Hstep. destruct (transition s) as [r|] eqn:Ht; [|done].
    injection Hstep as <-.
    destruct (render_fields (mkApp (store s) (query s) r None (boundary s)
                (deferredQuery s) (panel s) (reads s))) as (E1 & _ & E2 & E3 & _).
    cbn in E1, E2, E3. split; rewrite ?E1, ?E2, ?E3; auto. done.
  - injection Hstep as <-. eapply app_inv_same; try apply render_fields. by split.
  - unfold render_transition in Hstep. destruct (transition s); [|done].
    destruct (render_with _ _) as [[? ?] ?]. injection Hstep as <-. by split.
  - injection Hstep as <-. by split.
  - destruct (retry_offered s); [|done]. injection Hstep as <-. by split.
  - destruct (fire t (store s)) as [σ'|] eqn:Hf; [|done]. injection Hstep as <-.
    cbn in Hlen. split; cbn.
    + apply (reachable_run [Fire t] (store s)); [exact H1|].
      cbn [run step]. by rewrite Hf.
    + eapply fetch_only_env; [apply Hwf | left; eauto | done].
    + lia.
    + intros r Hr. specialize (H4 r Hr). lia.
  - destruct (run_job (store s)) as [σ'|] eqn:Hj; [|done]. injection Hstep as <-.
    cbn in Hlen. split; cbn.
    + apply (reachable_run [RunJob] (store s)); [exact H1|].
      cbn [run step]. by rewrite Hj.
    + eapply fetch_only_env; [apply Hwf | right; eauto | done].
    + lia.
    + intros r Hr. specialize (H4 r Hr). lia.
Qed.

Lemma app_run_inv l s s' : app_run l s = Some s' → app_inv s → app_inv s'.
Proof.
  revert s. induction l as [|e l IH]; intros s; cbn [app_run].
  - by intros [= <-].
  - destruct (app_step e s) as [s1|] eqn:E; [|done].
    intros Hrun Hinv. apply (IH s1 Hrun). by eapply app_step_inv.
Qed.

Lemma app_reachable_inv s : app_reachable s → app_inv s.
Proof. intros [l Hl]. apply (app_run_inv l mount s Hl mount_inv). Qed.

End AppInvariant.

Section AppSteps.

Implicit Types (s : App) (σ : Store) (r p : nat).




(** In the application [read()] throws the suspender or returns a filtered
    catalog, whatever the resource. *)
Lemma app_read s r :
  app_inv s → r < length (resources (store s)) →
  ∃ R, resources (store s) !! r = Some R ∧
    ((status R = pending ∧
      read r (store s) = Some (Throw (VPromise (suspender R)))) ∨
     (status R = success ∧
      ∃ found, result R = VProducts found ∧
               read r (store s) = Some (Return (VProducts found)))).
Proof.
  intros [H1 H2 H3 H4] Hlt.
  destruct (reachable_well_formed _ H1) as [Hc Hs].
  destruct (lookup_lt_is_Some_2 _ _ Hlt) as [R ER]. exists R. split; [done|].
  destruct (H2 r R ER) as (P & q & EP & HO).
  unfold read. rewrite ER.
  destruct (status R) eqn:Hst; [by left | right | exfalso].
  - split; [done|]. exists (filtered ALL_PRODUCTS q).
    destruct (c_outcome _ Hc r R ER) as (P' & EP' & HP'); [by rewrite Hst|].
    assert (P' = P) as -> by congruence.
    unfold outcome in HP'. rewrite Hst in HP'.
    destruct (t_fetch _ Hs _ P q EP HO) as [HP | [HP _]]; [|congruence].
    rewrite HP in HP'. injection HP' as HP'. by rewrite <- HP'.
  - destruct (c_outcome _ Hc r R ER) as (P' & EP' & HP'); [by rewrite Hst|].
    assert (P' = P) as -> by congruence.
    unfold outcome in HP'. rewrite Hst in HP'.
    destruct (t_fetch _ Hs _ P q EP HO) as [HP | [HP _]]; congruence.
Qed.

Lemma render_shows s :
  app_inv s → boundary s = VNull → shows_committed (render s).
Proof.
  intros Hinv Hb.
  destruct (app_read s (resource s) Hinv (a_resource s Hinv))
    as (R & ER & [[Hst Hread] | (Hst & found & Hres & Hread)]);
    destruct (render_fields s)
      as (E1 & _ & E2 & _ & E3 & [(_ & _ & _ & Hno) | (data & Hd & Hp & _)]);
    try congruence;
    rewrite Hread in Hd; injection Hd as <-; rewrite Hb in Hp;
    unfold shows_committed, render, render_with; rewrite Hread, Hb; cbn.
  - split; [done | by left].
  - split; [done|]. right. exists R, found, (deferredQuery s). done.
Qed.

(** Every step of the application keeps the screen on the committed
    resource. *)
Lemma shows_step e s s' :
  app_step e s = Some s' → app_inv s → shows_committed s → shows_committed s'.
Proof.
  intros Hstep Hinv [Hb Hp].
  assert (Hwf := reachable_well_formed _ (a_store s Hinv)).
  assert (Hkeep : ∀ σ', extends (store s) σ' →
            shows_committed (with_store σ' s)).
  { intros σ' (_ & HR & _). split; [done|].
    destruct Hp as [? | (R & found & dq & ER & Hst & Hres & Hpanel)]; [by left|].
    right. destruct (HR _ R ER) as (R' & ER' & _ & _ & [? | ->]); [congruence|].
    exists R, found, dq. done. }
  destruct e; cbn [app_step] in Hstep;
    try (destruct (mounted s); [|done]).
  - injection Hstep as <-.
    assert (Hext : extends (store s) (store (handleChange next s))).
    { apply (extends_run _ _ _ (handleChange_run next s) Hwf). }
    specialize (Hkeep _ Hext). rewrite handleChange_unfold in *.
    destruct Hkeep as [Hb' Hp']. split; [done|]. exact Hp'.
  - unfold commit in Hstep. destruct (transition s) as [r0|] eqn:Ht; [|done].
    injection Hstep as <-. apply render_shows; [|done].
    destruct Hinv as [H1 H2 H3 H4]. split; cbn; auto. done.
  - injection Hstep as <-. by apply render_shows.
  - unfold render_transition in Hstep. destruct (transition s) as [r0|]; [|done].
    destruct (render_with r0 s) as [[b v] rd]. injection Hstep as <-. by split.
  - injection Hstep as <-. by split.
  - unfold retry_offered in Hstep.
    destruct Hp as [Hp | (R & found & dq & _ & _ & _ & Hp)]; by rewrite Hp in Hstep.
  - destruct (fire t (store s)) as [σ'|] eqn:Hf; [|done]. injection Hstep as <-.
    apply Hkeep. apply (extends_step (Fire t)); [done | apply Hwf].
  - destruct (run_job (store s)) as [σ'|] eqn:Hj; [|done]. injection Hstep as <-.
    apply Hkeep. apply (extends_step RunJob); [done | apply Hwf].
Qed.

Lemma mount_shows : shows_committed mount.
Proof.
  rewrite mount_unfold. apply render_shows; [|done].
  split; cbn [store resource transition].
  - exists [FetchProducts []; CreateResource 0]. reflexivity.
  - apply fetch_only_after. intros r R E. unfold loaded in E.
    cbn [resources] in E. by rewrite lookup_nil in E.
  - cbn. lia.
  - done.
Qed.

Lemma app_run_shows l s s' :
  app_run l s = Some s' → app_inv s → shows_committed s → shows_committed s'.
Proof.
  revert s. induction l as [|e l IH]; intros s; cbn [app_run].
  - by intros [= <-].
  - destruct (app_step e s) as [s1|] eqn:E; [|done].
    intros Hrun Hinv Hshow. apply (IH s1 Hrun).
    + by eapply app_step_inv.
    + by eapply shows_step.
Qed.


Lemma with_store_with_store σ σ' s : with_store σ' (with_store σ s) = with_store σ' s.
Proof. done. Qed.

Lemma app_run_jobs n s σ' :
  run (replicate n RunJob) (store s) = Some σ' →
  app_run (replicate n JobRuns) s = Some (with_store σ' s).
Proof.
  revert s. induction n as [|n IH]; intros s; cbn [replicate run app_run].
  - intros [= <-]. by destruct s.
  - cbn [step app_step]. destruct (run_job (store s)) as [σ1|]; [|done].
    cbn [fmap option_fmap option_map]. intros Hrun.
    by rewrite (IH (with_store σ1 s) Hrun).
Qed.

(** The operation behind any resource of the application, in use or not,
    can always run to completion: its timer fires, its callback runs, and
    the cell ends up with status [success] and the filtered catalog, while
    nothing of the screen, of the hooks or of the log changes. *)
Lemma resource_completes s r :
  app_inv s → r < length (resources (store s)) →
  ∃ l σ' R found,
    app_run l s = Some (with_store σ' s) ∧
    resources σ' !! r = Some R ∧ status R = success ∧ result R = VProducts found.
Proof.
  intros [H1 H2 H3 H4] Hlt.
  destruct (reachable_well_formed _ H1) as [Hc Hs].
  destruct (lookup_lt_is_Some_2 _ _ Hlt) as [R ER].
  destruct (H2 r R ER) as (P & q & EP & HO).
  assert (Hqueued : ∀ σ R0 P0 v, well_formed σ → resources σ !! r = Some R0 →
            status R0 = pending → promises σ !! awaited R0 = Some P0 →
            settled P0 = Some (Fulfilled v) →
            ∃ n σ' R', run (replicate n RunJob) σ = Some σ' ∧
                       resources σ' !! r = Some R' ∧ status R' = success ∧
                       result R' = v).
  { intros σ R0 P0 v Hwf ER0 Hst EP0 HP0.
    assert (Hq := pending_settled_queued σ r R0 P0 _ (proj1 Hwf) ER0 EP0 Hst HP0).
    apply list_elem_of_lookup in Hq as [i Hi].
    destruct (queued_runs i σ r _ Hwf Hi) as (σ' & Hrun & Hr).
    unfold read in Hr. destruct (resources σ' !! r) as [R'|] eqn:ER'; [|done].
    exists (S i), σ', R'. split; [exact Hrun|]. split; [exact ER'|].
    cbn [reflects] in Hr. injection Hr as Hr.
    destruct (status R'); [discriminate Hr | | discriminate Hr].
    injection Hr as Hr. split; [reflexivity | exact Hr]. }
  destruct (status R) eqn:Hst.
  - destruct (t_fetch _ Hs _ P q EP HO) as [HP | [HP Hin]].
    + destruct (Hqueued (store s) R P _ (conj Hc Hs) ER Hst EP HP)
        as (n & σ' & R' & Hrun & ER' & Hst' & Hres').
      exists (replicate n JobRuns), σ', R', (filtered ALL_PRODUCTS q).
      split; [by apply app_run_jobs | done].
    + apply list_elem_of_lookup in Hin as [t ET].
      destruct (fire_fulfils _ t _ Hs ET) as (σ1 & Hfire & Hp1). cbn [resolves needle] in Hp1.
      assert (Hwf1 : well_formed σ1)
        by (by apply (step_well_formed (Fire t) (store s))).
      assert (ER1 : resources σ1 !! r = Some R).
      { destruct (fire_cases _ _ _ Hfire) as (T & _ & ->). by rewrite settle_resources. }
      unfold promise_state in Hp1.
      destruct (promises σ1 !! awaited R) as [P1|] eqn:EP1; [|done].
      injection Hp1 as HP1.
      destruct (Hqueued σ1 R P1 _ Hwf1 ER1 Hst EP1 HP1)
        as (n & σ' & R' & Hrun & ER' & Hst' & Hres').
      exists (TimerFires t :: replicate n JobRuns), σ', R', (filtered ALL_PRODUCTS q).
      split; [|done]. cbn [app_run app_step]. rewrite Hfire.
      cbn [fmap option_fmap option_map].
      by rewrite (app_run_jobs n (with_store σ1 s) σ' Hrun).
  - exists [], (store s), R, (filtered ALL_PRODUCTS q).
    split; [by destruct s|]. split; [done|]. split; [done|].
    destruct (c_outcome _ Hc r R ER) as (P' & EP' & HP'); [by rewrite Hst|].
    assert (P' = P) as -> by congruence.
    unfold outcome in HP'. rewrite Hst in HP'.
    destruct (t_fetch _ Hs _ P q EP HO) as [HP | [HP _]]; congruence.
  - destruct (c_outcome _ Hc r R ER) as (P' & EP' & HP'); [by rewrite Hst|].
    assert (P' = P) as -> by congruence.
    unfold outcome in HP'. rewrite Hst in HP'.
    destruct (t_fetch _ Hs _ P q EP HO) as [HP | [HP _]]; congruence.
Qed.

End AppSteps.

(** ** The catalog: generation and the two filters *)

Lemma String_of_decimal n : n ≤ 250 → String_of n = decimal n.
Proof.
  intros H.
  assert (Hall : Forall (λ n, String_of n = decimal n) (seq 0 251)).
  { apply (bool_decide_unpack _). vm_compute. exact I. }
  rewrite Forall_lookup in Hall. apply (Hall n). apply lookup_seq. lia.
Qed.


(** C8. The catalog has 250 records and the record at index [i] is made
    from [i] alone: its id is the decimal numeral of [i+1], its title the
    [(i mod 10)]-th of the ten names followed by a space and that numeral,
    its brand the [(i mod 4)]-th of Aran, Bertazzoni, Caesarstone, Radianz,
    its price the integer [99 + (i*17 mod 900)]; the ids are pairwise
    distinct; and in every store the program reaches, alone or under the
    application, the binding still holds that array. *)
Theorem catalog_is_generated_from_the_index :
  length ALL_PRODUCTS = 250 ∧
  length TITLES = 10 ∧
  BRANDS = [lit "Aran"; lit "Bertazzoni"; lit "Caesarstone"; lit "Radianz"] ∧
  (∀ i, i < 250 →
     ∃ name maker,
       TITLES !! (i mod 10) = Some name ∧ BRANDS !! (i mod 4) = Some maker ∧
       ALL_PRODUCTS !! i =
         Some {| id := decimal (i + 1);
                 title := name ++ lit " " ++ decimal (i + 1);
                 brand := maker;
                 price := 99 + (Z.of_nat i * 17) mod 900 |}) ∧
  NoDup (id <$> ALL_PRODUCTS) ∧
  (∀ σ, reachable σ → products σ = ALL_PRODUCTS) ∧
  (∀ s, app_reachable s → products (store s) = ALL_PRODUCTS).
Proof.
  split_and!.
  - apply ALL_PRODUCTS_length.
  - reflexivity.
  - reflexivity.
  - intros i Hi. exists (at_index TITLES (i mod 10)), (at_index BRANDS (i mod 4)).
    split_and!.
    + apply at_index_lookup. change (length TITLES) with 10.
      apply Nat.mod_upper_bound. lia.
    + apply at_index_lookup. change (length BRANDS) with 4.
      apply Nat.mod_upper_bound. lia.
    + rewrite (ALL_PRODUCTS_lookup i Hi). unfold product_at.
      rewrite String_of_decimal by lia. do 2 f_equal.
      rewrite Nat2Z.inj_mod, Nat2Z.inj_mul. reflexivity.
  - apply ids_distinct.
  - intros σ Hσ. apply (t_products σ), reachable_well_formed, Hσ.
  - intros s Hs. apply (t_products (store s)), reachable_well_formed.
    apply (a_store s), app_reachable_inv, Hs.
Qed.

(** C9. The query "Knife" selects the records at the indices 2, 12, ..., 242
    in this order, that is, the ids "3", "13", ..., "243"; these are exactly
    the records whose title contains "Chef Knife"; and the brand of each is
    the [(i mod 4)]-th of the brand cycle, [i] being its index. *)
Theorem knife_selects_every_tenth_record :
  filtered ALL_PRODUCTS (normalize (lit "Knife"))
    = List.map product_at (List.map (λ k, 2 + 10 * k) (seq 0 25)) ∧
  List.map id (filtered ALL_PRODUCTS (normalize (lit "Knife")))
    = [ lit "3"; lit "13"; lit "23"; lit "33"; lit "43"; lit "53"; lit "63";
        lit "73"; lit "83"; lit "93"; lit "103"; lit "113"; lit "123";
        lit "133"; lit "143"; lit "153"; lit "163"; lit "173"; lit "183";
        lit "193"; lit "203"; lit "213"; lit "223"; lit "233"; lit "243" ] ∧
  filtered ALL_PRODUCTS (normalize (lit "Knife"))
    = List.filter (λ p, includes (title p) (lit "Chef Knife")) ALL_PRODUCTS ∧
  List.map brand (filtered ALL_PRODUCTS (normalize (lit "Knife")))
    = List.map (λ k, at_index BRANDS ((2 + 10 * k) mod 4)) (seq 0 25).
Proof. split_and!; vm_compute; reflexivity. Qed.

(** C10. For a query without surrounding white space, the filter of
    [ProductsPanel] applied to what [fetchProducts] resolved to for the same
    query changes nothing.  For the query of two spaces it does: the fetch
    trims it to the empty query and returns the whole catalog, of which the
    panel keeps nothing. *)
Theorem panel_filter_keeps_fetched_list :
  (∀ q, trim q = q →
        visible (filtered ALL_PRODUCTS (normalize q)) q
        = filtered ALL_PRODUCTS (normalize q)) ∧
  trim (lit "  ") ≠ lit "  " ∧
  visible (filtered ALL_PRODUCTS (normalize (lit "  "))) (lit "  ")
    ≠ filtered ALL_PRODUCTS (normalize (lit "  ")).
Proof.
  split_and!.
  - intros q Hq. unfold visible, filtered.
    rewrite (normalize_trimmed q Hq). apply filter_twice.
  - discriminate.
  - intros H. apply (f_equal length) in H. vm_compute in H. discriminate.
Qed.

Lemma panel_filter_keeps_fetched_list_witness :
  visible (filtered ALL_PRODUCTS (normalize (lit "Knife"))) (lit "Knife")
  = filtered ALL_PRODUCTS (normalize (lit "Knife")).
Proof.
  apply (proj1 panel_filter_keeps_fetched_list (lit "Knife")). reflexivity.
Defined.

(** ** The query controller *)









(** ** The recovery boundary *)


Lemma failed_store_run :
  run [NewPromise; Reject 0 (VError (lit "offline")); CreateResource 0; RunJob] loaded
  = Some failed_store.
Proof. reflexivity. Qed.


Lemma fetchProducts_never_rejects_witness :
  (∀ e, promise_state (fst (fetchProducts (lit "Knife") loaded)) knife_store
        ≠ Some (Some (Rejected e))) ∧
  (promise_state (fst (fetchProducts (lit "Knife") loaded)) knife_store = Some None →
   ∃ t σ' v, fire t knife_store = Some σ' ∧
             promise_state (fst (fetchProducts (lit "Knife") loaded)) σ'
               = Some (Some (Fulfilled v))) ∧
  (∀ r R, resources knife_store !! r = Some R →
     awaited R = fst (fetchProducts (lit "Knife") loaded) →
     status R ≠ error ∧
     ∀ x, read r knife_store = Some (Throw x) →
          status R = pending ∧ x = VPromise (suspender R)).
Proof.
  apply (fetchProducts_never_rejects loaded (lit "Knife")
           [CreateResource 0; Fire 0; RunJob] knife_store).
  - exists []. reflexivity.
  - vm_compute. reflexivity.
Defined.

(** While [state.error] is truthy the boundary renders its fallback and not
    its children, whatever resource has been committed meanwhile: nothing but
    "Try again" brings the cards back. *)
Lemma fallback_stays_until_retry s data :
  truthy (boundary s) = true →
  read (resource s) (store s) = Some data →
  panel (render s) = ErrorPanel (boundary s) ∧
  boundary (render s) = boundary s ∧ reads (render s) = reads s.
Proof.
  intros Hb Hread. unfold render, render_with, ErrorBoundary.
  rewrite Hread, Hb. cbn. by rewrite app_nil_r.
Qed.

(** ** More on the two filters: what a query can and cannot select *)

Section TrimFacts.

Implicit Types (s u ws : jsstring).

Lemma trimStart_blank ws s : blank ws → trimStart (ws ++ s) = trimStart s.
Proof.
  induction 1 as [|c ws Hc _ IH]; [done|]. cbn. by rewrite Hc.
Qed.

Lemma trimStart_blank_nil ws : blank ws → trimStart ws = [].
Proof. intros H. rewrite <- (app_nil_r ws). by rewrite trimStart_blank. Qed.

(** [trimStart] drops a blank prefix and stops at a code unit that is not
    white space. *)
Lemma trimStart_split s :
  ∃ a, blank a ∧ s = a ++ trimStart s ∧
       (trimStart s = [] ∨ ∃ c t, trimStart s = c :: t ∧ is_space c = false).
Proof.
  induction s as [|c s (a & Ha & Hs & Hc)]; cbn.
  - exists []. split; [constructor|]. split; [done | by left].
  - destruct (is_space c) eqn:E.
    + exists (c :: a). split; [by constructor|]. split; [|done].
      cbn. by rewrite <- Hs.
    + exists []. split; [constructor|]. split; [done|]. right. eauto.
Qed.

Lemma trimStart_app s u : trimStart s ≠ [] → trimStart (s ++ u) = trimStart s ++ u.
Proof.
  induction s as [|c s IH]; cbn; [done|].
  destruct (is_space c); [exact IH | done].
Qed.

Lemma blank_rev ws : blank ws → blank (rev ws).
Proof. apply Forall_rev. Qed.

Lemma trimEnd_blank s ws : blank ws → trimEnd (s ++ ws) = trimEnd s.
Proof.
  intros H. unfold trimEnd. rewrite rev_app_distr.
  by rewrite trimStart_blank by (by apply blank_rev).
Qed.

Lemma trimEnd_blank_nil ws : blank ws → trimEnd ws = [].
Proof.
  intros H. unfold trimEnd. by rewrite trimStart_blank_nil by (by apply blank_rev).
Qed.

Lemma trimEnd_app u s : trimEnd s ≠ [] → trimEnd (u ++ s) = u ++ trimEnd s.
Proof.
  intros H. unfold trimEnd in *. rewrite rev_app_distr.
  rewrite trimStart_app.
  - by rewrite rev_app_distr, rev_involutive.
  - intros E. rewrite E in H. by destruct H.
Qed.

(** [trimEnd] drops a blank suffix. *)
Lemma trimEnd_split s : ∃ b, blank b ∧ s = trimEnd s ++ b.
Proof.
  destruct (trimStart_split (rev s)) as (a & Ha & Hs & _).
  exists (rev a). split; [by apply blank_rev|].
  unfold trimEnd. rewrite <- rev_app_distr, <- Hs. by rewrite rev_involutive.
Qed.

Lemma trim_blank_nil ws : blank ws → trim ws = [].
Proof. intros H. unfold trim. by rewrite trimStart_blank_nil. Qed.

(** White space around a string does not survive [trim]. *)
Lemma trim_padding ws s ws' : blank ws → blank ws' → trim (ws ++ s ++ ws') = trim s.
Proof.
  intros H H'. unfold trim. rewrite trimStart_blank by done.
  destruct (trimStart_split s) as (a & Ha & Hs & [E | (c & t & E & Hc)]).
  - assert (Hblank : blank (s ++ ws')).
    { rewrite Hs, E, app_nil_r. by apply Forall_app. }
    by rewrite (trimStart_blank_nil _ Hblank), E.
  - rewrite trimStart_app by (by rewrite E). by apply trimEnd_blank.
Qed.

(** What [trim] keeps of a string it keeps of every string around it. *)
Lemma trim_occurs pre s post : occurs_in (trim s) (trim (pre ++ s ++ post)).
Proof.
  destruct (trimStart_split s) as (a & Ha & Hs & Hstart).
  destruct (trimEnd_split (trimStart s)) as (b & Hb & Ht).
  fold (trim s) in Ht.
  destruct (decide (trim s = [])) as [E | Hne].
  { rewrite E. by exists [], (trim (pre ++ s ++ post)). }
  assert (Hst : trimStart s ≠ []).
  { intros E. apply Hne. unfold trim. by rewrite E. }
  assert (∃ x, trimStart (pre ++ s ++ post) = x ++ trimStart s ++ post) as [x Hx].
  { destruct (trimStart_split pre) as (a' & Ha' & Hpre & [E | (c & t & E & _)]).
    - exists []. rewrite Hpre, E, app_nil_r, trimStart_blank by done.
      by apply trimStart_app.
    - exists (trimStart pre ++ a).
      rewrite trimStart_app by (by rewrite E).
      rewrite Hs at 1. by rewrite <- !app_assoc. }
  unfold trim at 2. rewrite Hx.
  destruct (decide (trimEnd post = [])) as [Ep | Hp].
  - destruct (trimEnd_split post) as (b' & Hb' & Hpost). rewrite Ep in Hpost.
    cbn in Hpost. subst post.
    rewrite app_assoc, trimEnd_blank by done.
    rewrite trimEnd_app by exact Hne. exists x, []. by rewrite app_nil_r.
  - rewrite !app_assoc, trimEnd_app by done.
    exists x, (b ++ trimEnd post). rewrite Ht at 1. by rewrite <- !app_assoc.
Qed.

Lemma lower_unit_small d :
  (97 ≤ d ≤ 122 ∨ 224 ≤ d ≤ 254)%N → lower_unit d = d.
Proof.
  intros H. unfold lower_unit.
  replace ((65 <=? d)%N && (d <=? 90)%N) with false
    by (symmetry; apply andb_false_iff; rewrite !N.leb_gt; lia).
  replace ((192 <=? d)%N && (d <=? 222)%N) with false
    by (symmetry; apply andb_false_iff; rewrite !N.leb_gt; lia).
  cbn. by replace (d =? 8490)%N with false by (symmetry; apply N.eqb_neq; lia).
Qed.

Lemma lower_unit_cases c :
  lower_unit c = c ∨ (97 ≤ lower_unit c ≤ 122 ∨ 224 ≤ lower_unit c ≤ 254)%N.
Proof.
  unfold lower_unit.
  destruct ((65 <=? c)%N && (c <=? 90)%N) eqn:H1;
    [|destruct ((192 <=? c)%N && (c <=? 222)%N && negb (c =? 215)%N) eqn:H2;
      [|destruct (c =? 0x212A)%N eqn:H3]].
  - rewrite !andb_true_iff, !N.leb_le in H1. right. lia.
  - rewrite !andb_true_iff, !N.leb_le in H2. right. lia.
  - right. lia.
  - by left.
Qed.

Lemma lower_unit_twice c : lower_unit (lower_unit c) = lower_unit c.
Proof.
  destruct (lower_unit_cases c) as [E | H]; [by rewrite !E | by apply lower_unit_small].
Qed.

Lemma toLowerCase_twice s : toLowerCase (toLowerCase s) = toLowerCase s.
Proof.
  unfold toLowerCase. rewrite List.map_map. apply List.map_ext.
  apply lower_unit_twice.
Qed.

Lemma toLowerCase_app s u : toLowerCase (s ++ u) = toLowerCase s ++ toLowerCase u.
Proof. apply List.map_app. Qed.

Lemma toLowerCase_blank ws : blank ws → blank (toLowerCase ws).
Proof.
  induction 1 as [|c ws Hc _ IH]; [constructor|].
  constructor; [by rewrite is_space_lower_unit | exact IH].
Qed.

Lemma normalize_padding ws q ws' :
  blank ws → blank ws' → normalize (ws ++ q ++ ws') = normalize q.
Proof.
  intros H H'. unfold normalize. rewrite !toLowerCase_app.
  by apply trim_padding; apply toLowerCase_blank.
Qed.

Lemma normalize_lower q : normalize (toLowerCase q) = normalize q.
Proof. unfold normalize. by rewrite toLowerCase_twice. Qed.

Lemma normalize_occurs pre q post :
  occurs_in (normalize q) (normalize (pre ++ q ++ post)).
Proof. unfold normalize. rewrite !toLowerCase_app. apply trim_occurs. Qed.

Lemma occurs_in_trans a b s : occurs_in a b → occurs_in b s → occurs_in a s.
Proof.
  intros (p1 & q1 & ->) (p2 & q2 & ->).
  exists (p2 ++ p1), (q1 ++ q2). by rewrite <- !app_assoc.
Qed.

Lemma occurs_in_length q s : occurs_in q s → length q ≤ length s.
Proof. intros (pre & post & ->). rewrite !length_app. lia. Qed.

Lemma occurs_in_elem q s c : occurs_in q s → c ∈ q → c ∈ s.
Proof.
  intros (pre & post & ->) Hc. rewrite !elem_of_app. auto.
Qed.

End TrimFacts.

Section FilterFacts.

Lemma filter_implied {A} (f g : A → bool) (l : list A) :
  (∀ x, f x = true → g x = true) → sublist (List.filter f l) (List.filter g l).
Proof.
  intros H. induction l as [|a l IH]; cbn; [constructor|].
  destruct (f a) eqn:E.
  - rewrite (H a E). by constructor.
  - destruct (g a); [by constructor | done].
Qed.

Lemma filter_swap {A} (f g : A → bool) (l : list A) :
  List.filter f (List.filter g l) = List.filter g (List.filter f l).
Proof.
  induction l as [|a l IH]; cbn; [done|].
  destruct (g a) eqn:Eg, (f a) eqn:Ef; cbn; rewrite ?Eg, ?Ef, IH; done.
Qed.

Lemma filter_none {A} (f : A → bool) (l : list A) :
  (∀ x, x ∈ l → f x = false) → List.filter f l = [].
Proof.
  induction l as [|a l IH]; intros H; cbn; [done|].
  rewrite (H a) by left. apply IH. intros x Hx. apply H. by right.
Qed.

Lemma matches_narrower n1 n2 p :
  occurs_in n1 n2 → matches n2 p = true → matches n1 p = true.
Proof.
  intros Hn. rewrite !matches_contains.
  intros [H | H]; [left | right]; by apply (occurs_in_trans n1 n2).
Qed.

(** Every lower-cased title and brand of the catalog is made of catalog
    units and has at most [longest_text] of them. *)
Lemma catalog_texts p :
  p ∈ ALL_PRODUCTS →
  Forall (λ c, catalog_unit c = true) (toLowerCase (title p)) ∧
  Forall (λ c, catalog_unit c = true) (toLowerCase (brand p)) ∧
  length (toLowerCase (title p)) ≤ longest_text ∧
  length (toLowerCase (brand p)) ≤ longest_text.
Proof.
  intros Hp.
  assert (Hunit : ∀ c, c ∈ toLowerCase (title p) ∨ c ∈ toLowerCase (brand p) →
                       catalog_unit c = true).
  { intros c Hc. unfold catalog_unit. apply existsb_exists. exists p.
    split; [by apply list_elem_of_In|]. apply orb_true_iff.
    destruct Hc as [Hc | Hc]; [left | right]; apply existsb_exists; exists c;
      (split; [by apply list_elem_of_In | apply N.eqb_refl]). }
  assert (Hall : Forall (λ p,
            length (toLowerCase (title p)) ≤ longest_text ∧
            length (toLowerCase (brand p)) ≤ longest_text) ALL_PRODUCTS).
  { apply (bool_decide_unpack _). vm_compute. exact I. }
  rewrite Forall_forall in Hall. destruct (Hall p Hp) as [Hlt Hlb].
  split_and!; try done; apply Forall_forall; intros c Hc; apply Hunit; auto.
Qed.

End FilterFacts.

(** X1. [fetchProducts] does the same for a query and for that query padded
    with white space; it does the same for a query of Basic Latin and
    Latin-1 characters and for that query lower-cased (so queries that
    differ in the capitalisation of such letters, or in padding, are
    answered alike); and a query of white space only is answered with all
    the records. *)
Theorem fetch_ignores_case_and_padding ws q ws' σ :
  blank ws → blank ws' →
  fetchProducts (ws ++ q ++ ws') σ = fetchProducts q σ ∧
  (latin1 q = true → fetchProducts (toLowerCase q) σ = fetchProducts q σ) ∧
  filtered (products σ) (normalize (ws ++ ws')) = products σ.
Proof.
  intros H H'. unfold fetchProducts.
  rewrite normalize_padding, normalize_lower by done. split_and!; try done.
  rewrite <- (app_nil_l ws'), normalize_padding by done.
  apply filtered_empty_query.
Qed.

Lemma fetch_ignores_case_and_padding_witness :
  fetchProducts (lit " " ++ lit "Chef KNIFE" ++ lit "  ") loaded
    = fetchProducts (lit "Chef KNIFE") loaded ∧
  (latin1 (lit "Chef KNIFE") = true ∧
   toLowerCase (lit "Chef KNIFE") = lit "chef knife" ∧
   fetchProducts (lit "chef knife") loaded
     = fetchProducts (lit "Chef KNIFE") loaded) ∧
  filtered (products loaded) (normalize (lit " " ++ lit "  ")) = products loaded.
Proof.
  destruct (fetch_ignores_case_and_padding
              (lit " ") (lit "Chef KNIFE") (lit "  ") loaded)
    as (Hpad & Hcase & Hall).
  - repeat constructor.
  - repeat constructor.
  - split_and!; [exact Hpad | reflexivity | reflexivity | | exact Hall].
    exact (Hcase eq_refl).
Defined.

(** X2. Text added before or after a query can only narrow what is found:
    the list fetched for the longer query is a subsequence of the list
    fetched for the shorter one, and so it is for the filter of the panel. *)
Theorem longer_query_narrows (products : list Product) pre q post :
  sublist (filtered products (normalize (pre ++ q ++ post)))
          (filtered products (normalize q)) ∧
  sublist (visible products (pre ++ q ++ post)) (visible products q).
Proof.
  split; apply filter_implied; intros p; apply matches_narrower.
  - apply normalize_occurs.
  - rewrite !toLowerCase_app. by exists (toLowerCase pre), (toLowerCase post).
Qed.

(** X3. The cards of the panel are the records that match both the query
    the data was fetched for and the deferred query, in the order of the
    data: the two filters commute, and a record is kept exactly when it is
    in the data and contains both needles. *)
Theorem grid_holds_records_matching_both (data : list Product) n deferred :
  visible (filtered data n) deferred = filtered (visible data deferred) n ∧
  sublist (visible (filtered data n) deferred) data ∧
  ∀ p, p ∈ visible (filtered data n) deferred ↔
       p ∈ data ∧ contains_query n p ∧ contains_query (toLowerCase deferred) p.
Proof.
  split_and!.
  - apply filter_swap.
  - unfold visible, filtered.
    etrans; [apply filter_sublist | apply filter_sublist].
  - intros p. unfold visible, filtered.
    rewrite !list_elem_of_In, !filter_In, !matches_contains. tauto.
Qed.

(** ** More on [createResource]: the suspender, and promises wrapped twice *)

Section SuspenderFacts.

Implicit Types (σ : Store) (p r t : nat) (s : settlement).

(** Settling a promise that is no suspender leaves the suspenders alone. *)
Lemma settle_suspenders p s σ :
  (∀ P r, promises σ !! p = Some P → origin P ≠ ByReaction r) →
  suspenders_track σ → suspenders_track (settle p s σ).
Proof.
  intros Hp H r R ER. rewrite settle_resources in ER.
  destruct (H r R ER) as (S & ES & HO & HS).
  destruct (settle_lookup_old p s σ _ S ES) as (S' & ES' & HO' & _ & Hne & _).
  exists S'. split; [done|].
  assert (suspender R ≠ p) by (intros <-; by apply (Hp S r)).
  rewrite (Hne ltac:(done)). done.
Qed.

Lemma alloc_suspenders o σ :
  suspenders_track σ → suspenders_track (snd (alloc_promise o σ)).
Proof.
  intros H r R ER. cbn in ER. destruct (H r R ER) as (S & ES & HS).
  exists S. split; [|done]. cbn. by apply lookup_app_l_Some.
Qed.

Lemma then_suspenders p r0 σ : suspenders_track σ → suspenders_track (then_ p r0 σ).
Proof.
  intros H r R ER. destruct (then_rest p r0 σ) as (_ & _ & Hres).
  rewrite Hres in ER. destruct (H r R ER) as (S & ES & HO & HS).
  destruct (then_lookup_old p r0 σ _ S ES) as (S' & ES' & HS' & HO').
  exists S'. split_and!; congruence.
Qed.

Lemma step_suspenders a σ σ' :
  step a σ = Some σ' → well_formed σ → suspenders_track σ → suspenders_track σ'.
Proof.
  intros Hstep [Hc Hs] H. destruct a as [|p v|p e|query|p|t|]; cbn [step] in Hstep.
  - injection Hstep as <-. by apply alloc_suspenders.
  - destruct (by_caller p σ) eqn:Hby; [|done].
    destruct (negb (is_promise v)); [|done]. injection Hstep as <-.
    apply settle_suspenders; [|done]. intros P r EP.
    by rewrite (by_caller_origin p σ P Hby EP).
  - destruct (by_caller p σ) eqn:Hby; [|done]. injection Hstep as <-.
    apply settle_suspenders; [|done]. intros P r EP.
    by rewrite (by_caller_origin p σ P Hby EP).
  - injection Hstep as <-. unfold fetchProducts. cbn [alloc_promise snd].
    intros r R ER. cbn in ER.
    destruct (alloc_suspenders (ByTimer (normalize query)) σ H r R ER)
      as (S & ES & HS).
    exists S. split; [|done]. exact ES.
  - destruct (decide (p < length (promises σ))); [|done]. injection Hstep as <-.
    unfold createResource. cbn [alloc_promise snd].
    apply then_suspenders. intros r R ER. cbn in ER |- *.
    apply lookup_app_Some in ER as [ER | [Hge ER]].
    + destruct (H r R ER) as (S & ES & HS). exists S.
      split; [by apply lookup_app_l_Some | done].
    + apply list_lookup_singleton_Some in ER as [Hr <-]. cbn.
      eexists. split; [by apply list_lookup_middle|]. cbn.
      split; [|done]. f_equal. lia.
  - destruct (fire_cases t σ σ' Hstep) as (T & ET & ->).
    destruct (t_timer σ Hs t T ET) as (P & EP & _ & HO).
    apply settle_suspenders.
    + cbn. intros P' r EP'. assert (P' = P) as -> by congruence. by rewrite HO.
    + intros r R ER. cbn in ER. destruct (H r R ER) as (S & ES & HS). by exists S.
  - destruct (run_job_cases σ σ' Hstep) as (r0 & s0 & rest & R0 & Hjobs & ER0 & ->).
    destruct (H r0 R0 ER0) as (S0 & ES0 & HO0 & HS0).
    assert (Hpend : status R0 = pending).
    { apply (c_pending σ Hc r0 R0 ER0). unfold waiting. rewrite Hjobs.
      apply elem_of_app. right. left. }
    unfold suspender_state in HS0. rewrite Hpend in HS0.
    set (σ1 := mkStore (promises σ) (<[r0 := callback s0 R0]> (resources σ))
                       (timers σ) rest (products σ)).
    destruct (settle_cases (suspender R0) (Fulfilled VUndefined) σ1)
      as [(P & EP & HP & Hσ) | [Hset _]]; [|by destruct (Hset S0 ES0)].
    assert (P = S0) as -> by (cbn in EP; congruence).
    rewrite Hσ. intros r R ER. cbn in ER |- *.
    apply (callback_lookup _ _ _ _ _ _ ER0) in ER as [[-> ->] | [Hne ER]].
    + destruct (callback_fields s0 R0) as (_ & Hsu & Hst & _). rewrite Hsu.
      rewrite list_lookup_insert_eq by (by eapply lookup_lt_Some).
      eexists. split; [done|]. cbn. split; [done|].
      unfold suspender_state. by destruct (status (callback s0 R0)).
    + destruct (H r R ER) as (S & ES & HO & HS).
      assert (suspender R ≠ suspender R0).
      { intros E. rewrite E in ES. assert (S = S0) as -> by congruence.
        rewrite HO in HO0. by injection HO0. }
      exists S. split; [by rewrite list_lookup_insert_ne | done].
Qed.

Lemma reachable_suspenders σ : reachable σ → suspenders_track σ.
Proof.
  intros [l Hl].
  assert (Hgen : ∀ l σ0, run l σ0 = Some σ → well_formed σ0 →
                         suspenders_track σ0 → suspenders_track σ).
  { clear l Hl. induction l as [|a l IH]; intros σ0; cbn [run].
    - by intros [= <-].
    - destruct (step a σ0) as [σ1|] eqn:E; [|done].
      intros Hrun Hwf H0. apply (IH σ1 Hrun).
      + by eapply step_well_formed.
      + by eapply step_suspenders. }
  apply (Hgen l loaded Hl).
  - split; [apply loaded_consistent | apply loaded_scheduled].
  - intros r R ER. unfold loaded in ER. cbn in ER. by rewrite lookup_nil in ER.
Qed.

End SuspenderFacts.

(** X5. The promise that [read()] throws while the status is [pending] is
    unsettled exactly as long as the status is [pending]; once the callback
    has run it is fulfilled with [undefined], also when the awaited promise
    was rejected: it is never rejected.  No two resources share a suspender.
    So when the thrown promise has settled, [read()] no longer takes its
    [pending] branch. *)
Theorem suspender_settles_with_the_status σ r R :
  reachable σ → resources σ !! r = Some R →
  ∃ S, promises σ !! suspender R = Some S ∧
    (settled S = None ↔ status R = pending) ∧
    (settled S = Some (Fulfilled VUndefined) ↔ status R ≠ pending) ∧
    (∀ e, settled S ≠ Some (Rejected e)) ∧
    (∀ r' R', resources σ !! r' = Some R' → suspender R' = suspender R → r' = r).
Proof.
  intros Hreach ER.
  destruct (reachable_suspenders σ Hreach r R ER) as (S & ES & HO & HS).
  exists S. split; [done|]. unfold suspender_state in HS.
  split_and!.
  - rewrite HS. by destruct (status R).
  - rewrite HS. by destruct (status R).
  - intros e. rewrite HS. by destruct (status R).
  - intros r' R' ER' E.
    destruct (reachable_suspenders σ Hreach r' R' ER') as (S' & ES' & HO' & _).
    rewrite E in ES'. assert (S' = S) as -> by congruence.
    rewrite HO in HO'. by injection HO'.
Qed.

Lemma suspender_settles_with_the_status_witness :
  ∃ S, promises wrapped_and_notified !! 1 = Some S ∧
    (settled S = None ↔ success = pending) ∧
    (settled S = Some (Fulfilled VUndefined) ↔ success ≠ pending) ∧
    (∀ e, settled S ≠ Some (Rejected e)) ∧
    (∀ r' R', resources wrapped_and_notified !! r' = Some R' →
              suspender R' = 1 → r' = 0).
Proof.
  apply (suspender_settles_with_the_status wrapped_and_notified 0
           (mkResource success (VNumber 1) 1 0)).
  - exists [NewPromise; Resolve 0 (VNumber 1); CreateResource 0; RunJob].
    vm_compute. reflexivity.
  - reflexivity.
Defined.

(** X6. Two resources made from one promise never disagree: once the
    callbacks of both have run they hold the same status and the same
    result, and [read()] of one does what [read()] of the other does. *)
Theorem resources_of_one_promise_agree σ r1 R1 r2 R2 :
  reachable σ →
  resources σ !! r1 = Some R1 → resources σ !! r2 = Some R2 →
  awaited R1 = awaited R2 →
  status R1 ≠ pending → status R2 ≠ pending →
  status R1 = status R2 ∧ result R1 = result R2 ∧ read r1 σ = read r2 σ.
Proof.
  intros Hreach E1 E2 HA H1 H2.
  destruct (reachable_well_formed σ Hreach) as [Hc _].
  destruct (c_outcome σ Hc r1 R1 E1 H1) as (P1 & EP1 & HP1).
  destruct (c_outcome σ Hc r2 R2 E2 H2) as (P2 & EP2 & HP2).
  rewrite HA in EP1. assert (P1 = P2) as -> by congruence.
  assert (Ho : outcome R1 = outcome R2) by congruence.
  unfold read. rewrite E1, E2. unfold outcome in Ho.
  destruct (status R1), (status R2); try done; injection Ho as ->; done.
Qed.

Lemma resources_of_one_promise_agree_witness :
  success = success ∧ VNumber 1 = VNumber 1 ∧
  read 0 wrapped_twice = read 1 wrapped_twice.
Proof.
  apply (resources_of_one_promise_agree wrapped_twice
           0 (mkResource success (VNumber 1) 1 0)
           1 (mkResource success (VNumber 1) 2 0)).
  - exists [NewPromise; Resolve 0 (VNumber 1); CreateResource 0; CreateResource 0;
            RunJob; RunJob].
    vm_compute. reflexivity.
  - reflexivity.
  - reflexivity.
  - reflexivity.
  - discriminate.
  - discriminate.
Defined.

(** ** More on the application: what is on screen *)

Section ScreenFacts.

Implicit Types (s : App) (σ : Store) (r p : nat).

Lemma fetched_for_unique r q q' σ : fetched_for r q σ → fetched_for r q' σ → q = q'.
Proof.
  intros (R & P & ER & EP & HO) (R' & P' & ER' & EP' & HO').
  assert (R' = R) as -> by congruence. assert (P' = P) as -> by congruence.
  congruence.
Qed.

Lemma fetched_for_extends r q σ σ' :
  extends σ σ' → fetched_for r q σ → fetched_for r q σ'.
Proof.
  intros (HP & HR & _) (R & P & ER & EP & HO).
  destruct (HR r R ER) as (R' & ER' & HA & _).
  destruct (HP _ P EP) as (P' & EP' & HO' & _).
  exists R', P'. split_and!; congruence.
Qed.

(** A successful resource of the application holds the catalog filtered for
    the query it was fetched for. *)
Lemma success_result s r R :
  app_inv s → resources (store s) !! r = Some R → status R = success →
  ∃ q, fetched_for r q (store s) ∧ result R = VProducts (filtered ALL_PRODUCTS q).
Proof.
  intros [H1 H2 H3 H4] ER Hst.
  destruct (reachable_well_formed _ H1) as [Hc Hs].
  destruct (H2 r R ER) as (P & q & EP & HO).
  exists q. split; [by exists R, P|].
  destruct (c_outcome _ Hc r R ER) as (P' & EP' & HP'); [by rewrite Hst|].
  assert (P' = P) as -> by congruence.
  unfold outcome in HP'. rewrite Hst in HP'.
  destruct (t_fetch _ Hs _ P q EP HO) as [HP | [HP _]]; [|congruence].
  rewrite HP in HP'. injection HP' as HP'. by rewrite <- HP'.
Qed.

Lemma mount_tracks : tracks_query mount.
Proof.
  rewrite mount_unfold. unfold tracks_query, latest.
  destruct (render_fields (mkApp (after_fetch [] loaded) [] 0 None VNull [] Blank []))
    as (E1 & E2 & E3 & E4 & _).
  rewrite E1, E2, E3, E4. cbn [store query resource transition default].
  eexists _, _. split_and!; reflexivity.
Qed.

Lemma tracks_step e s s' :
  app_step e s = Some s' → app_inv s → tracks_query s → tracks_query s'.
Proof.
  intros Hstep Hinv H.
  assert (Hwf := reachable_well_formed _ (a_store s Hinv)).
  assert (Hsame : ∀ s0, store s0 = store s → query s0 = query s →
            latest s0 = latest s → tracks_query s0).
  { intros s0 E1 E2 E3. unfold tracks_query. by rewrite E1, E2, E3. }
  destruct e; cbn [app_step] in Hstep;
    try (destruct (mounted s); [|done]).
  - injection Hstep as <-. rewrite handleChange_unfold.
    unfold tracks_query, latest, after_fetch.
    cbn [store query resource transition default].
    eexists _, _. split_and!.
    + by apply list_lookup_middle.
    + cbn [awaited promises]. by apply list_lookup_middle.
    + done.
  - unfold commit in Hstep. destruct (transition s) as [r0|] eqn:Ht; [|done].
    injection Hstep as <-.
    destruct (render_fields (mkApp (store s) (query s) r0 None (boundary s)
                (deferredQuery s) (panel s) (reads s))) as (E1 & E2 & E3 & E4 & _).
    apply Hsame; [done | done |]. unfold latest. rewrite E3, E4, Ht. done.
  - injection Hstep as <-. destruct (render_fields s) as (E1 & E2 & E3 & E4 & _).
    apply Hsame; [done | done |]. unfold latest. by rewrite E3, E4.
  - unfold render_transition in Hstep. destruct (transition s) as [r0|] eqn:Ht; [|done].
    destruct (render_with r0 s) as [[b v] rd]. injection Hstep as <-.
    apply Hsame; try done. unfold latest. cbn. by rewrite Ht.
  - injection Hstep as <-. by apply Hsame.
  - destruct (retry_offered s); [|done]. injection Hstep as <-. by apply Hsame.
  - destruct (fire t (store s)) as [σ'|] eqn:Hf; [|done]. injection Hstep as <-.
    eapply fetched_for_extends; [|exact H].
    apply (extends_step (Fire t)); [done | apply Hwf].
  - destruct (run_job (store s)) as [σ'|] eqn:Hj; [|done]. injection Hstep as <-.
    eapply fetched_for_extends; [|exact H].
    apply (extends_step RunJob); [done | apply Hwf].
Qed.

Lemma app_run_tracks l s s' :
  app_run l s = Some s' → app_inv s → tracks_query s → tracks_query s'.
Proof.
  revert s. induction l as [|e l IH]; intros s; cbn [app_run].
  - by intros [= <-].
  - destruct (app_step e s) as [s1|] eqn:E; [|done].
    intros Hrun Hinv H. apply (IH s1 Hrun).
    + by eapply app_step_inv.
    + by eapply tracks_step.
Qed.

Lemma app_reachable_facts s :
  app_reachable s → app_inv s ∧ shows_committed s ∧ tracks_query s.
Proof.
  intros [l Hl]. split_and!.
  - apply app_reachable_inv. by exists l.
  - apply (app_run_shows l mount s Hl mount_inv mount_shows).
  - apply (app_run_tracks l mount s Hl mount_inv mount_tracks).
Qed.

Lemma app_run_app l1 l2 s :
  app_run (l1 ++ l2) s =
    match app_run l1 s with Some s1 => app_run l2 s1 | None => None end.
Proof.
  revert s. induction l1 as [|e l1 IH]; intros s; cbn [app_run app]; [done|].
  by destruct (app_step e s).
Qed.

End ScreenFacts.

(** X4. A query whose normalized form holds a code unit that occurs in no
    lower-cased title and in no lower-cased brand of the catalog, or is
    longer than the longest of them, selects no record.  [ProductsPanel]
    then returns the "No results" message, whatever the deferred query is;
    and while such a query is the text of the input and no transition is
    pending, the region shows the placeholders or that message, never a
    card. *)
Theorem foreign_query_selects_nothing q :
  (∃ c, c ∈ normalize q ∧ catalog_unit c = false) ∨
  longest_text < length (normalize q) →
  filtered ALL_PRODUCTS (normalize q) = [] ∧
  (∀ deferred,
     ProductsPanel (Return (VProducts (filtered ALL_PRODUCTS (normalize q)))) deferred
       = Return (no_results deferred)) ∧
  (∀ s, app_reachable s → query s = q → transition s = None →
        panel s = Skeleton 9 ∨ ∃ deferred, panel s = no_results deferred).
Proof.
  intros H.
  assert (Hnone : filtered ALL_PRODUCTS (normalize q) = []).
  { apply filter_none. intros p Hp.
    destruct (catalog_texts p Hp) as (Ht & Hb & Hlt & Hlb).
    apply not_true_is_false. rewrite matches_contains.
    assert (Hno : ∀ s, Forall (λ c, catalog_unit c = true) s →
                       length s ≤ longest_text → ¬ occurs_in (normalize q) s).
    { intros s Hs Hl Hocc. destruct H as [(c & Hc & Hcu) | Hlen].
      - rewrite Forall_forall in Hs.
        rewrite (Hs c) in Hcu; [done | by apply (occurs_in_elem (normalize q))].
      - apply occurs_in_length in Hocc. lia. }
    intros [Hocc | Hocc].
    - by apply (Hno _ Ht Hlt).
    - by apply (Hno _ Hb Hlb). }
  split_and!; [done | by rewrite Hnone |].
  intros s Hreach Hq Ht.
  destruct (app_reachable_facts s Hreach) as (Hinv & [_ Hp] & Htr).
  destruct Hp as [Hp | (R & found & dq & ER & Hst & Hres & Hp)]; [by left | right].
  destruct (success_result s _ R Hinv ER Hst) as (q' & Hq' & Hfound).
  unfold tracks_query, latest in Htr. rewrite Ht, Hq in Htr. cbn [default] in Htr.
  rewrite (fetched_for_unique _ _ _ _ Hq' Htr), Hnone in Hfound.
  rewrite Hres in Hfound. injection Hfound as ->.
  by exists dq.
Qed.

Lemma foreign_query_selects_nothing_witness :
  filtered ALL_PRODUCTS (normalize (lit "Q")) = [] ∧
  (∀ deferred,
     ProductsPanel (Return (VProducts (filtered ALL_PRODUCTS (normalize (lit "Q")))))
                   deferred
       = Return (no_results deferred)) ∧
  (∀ s, app_reachable s → query s = lit "Q" → transition s = None →
        panel s = Skeleton 9 ∨ ∃ deferred, panel s = no_results deferred).
Proof.
  apply (foreign_query_selects_nothing (lit "Q")).
  left. exists 113%N. split; [|vm_compute; reflexivity].
  change (normalize (lit "Q")) with (lit "q").
  rewrite list_elem_of_In. cbn. tauto.
Defined.

(** X7. In the application no fetch fails, so the boundary never captures
    anything: in every state the application reaches, [state.error] is
    [null], no resource has status [error], the region shows the nine
    placeholders or the cards, never the fallback, the tree stays mounted,
    and typing is taken whatever the resources are doing. *)
Theorem application_never_fails s :
  app_reachable s →
  boundary s = VNull ∧
  (∀ r R, resources (store s) !! r = Some R → status R ≠ error) ∧
  (panel s = Skeleton 9 ∨ ∃ cards deferred, panel s = Grid cards deferred) ∧
  mounted s = true ∧ retry_offered s = false ∧
  ∀ next, ∃ s', app_step (Typed next) s = Some s' ∧ query s' = next.
Proof.
  intros Hreach. destruct (app_reachable_facts s Hreach) as (Hinv & [Hb Hp] & _).
  assert (Hpanel : panel s = Skeleton 9 ∨ ∃ cards deferred, panel s = Grid cards deferred).
  { destruct Hp as [? | (R & found & dq & _ & _ & _ & ?)]; [by left | right; eauto]. }
  assert (Hm : mounted s = true).
  { unfold mounted. by destruct Hpanel as [-> | (? & ? & ->)]. }
  split_and!; try done.
  - intros r R ER Hst.
    destruct (app_read s r Hinv (lookup_lt_Some _ _ _ ER))
      as (R' & ER' & [[Hst' _] | [Hst' _]]);
      assert (R' = R) as -> by congruence; congruence.
  - unfold retry_offered. by destruct Hpanel as [-> | (? & ? & ->)].
  - intros next. exists (handleChange next s). cbn [app_step]. rewrite Hm.
    split; [done|]. by rewrite handleChange_unfold.
Qed.

Lemma application_never_fails_witness :
  boundary typed_a_later = VNull ∧
  (∀ r R, resources (store typed_a_later) !! r = Some R → status R ≠ error) ∧
  (panel typed_a_later = Skeleton 9 ∨
   ∃ cards deferred, panel typed_a_later = Grid cards deferred) ∧
  mounted typed_a_later = true ∧ retry_offered typed_a_later = false ∧
  ∀ next, ∃ s', app_step (Typed next) typed_a_later = Some s' ∧ query s' = next.
Proof.
  apply (application_never_fails typed_a_later).
  exists [Typed (lit "a"); Commit; TimerFires 0; JobRuns; Render].
  vm_compute. reflexivity.
Defined.

(** X8. Whatever cards the application shows are the catalog filtered for
    the query the committed resource was fetched for, filtered again by the
    deferred query shown with them; when no transition is pending that query
    is the text of the input.  The cards are catalog records in catalog
    order, and their ids (the React keys) are pairwise distinct. *)
Theorem screen_shows_the_committed_query s cards deferred :
  app_reachable s → panel s = Grid cards deferred →
  ∃ q, fetched_for (resource s) q (store s) ∧
       cards = visible (filtered ALL_PRODUCTS q) deferred ∧
       (transition s = None → q = normalize (query s)) ∧
       sublist cards ALL_PRODUCTS ∧ NoDup (id <$> cards).
Proof.
  intros Hreach Hpanel.
  destruct (app_reachable_facts s Hreach) as (Hinv & [Hb Hp] & Htr).
  destruct Hp as [Hp | (R & found & dq & ER & Hst & Hres & Hp)]; [congruence|].
  rewrite Hpanel in Hp. injection Hp as -> ->.
  destruct (success_result s _ R Hinv ER Hst) as (q & Hq & Hfound).
  rewrite Hres in Hfound. injection Hfound as ->.
  assert (Hsub : sublist (visible (filtered ALL_PRODUCTS q) dq) ALL_PRODUCTS).
  { unfold visible, filtered. etrans; apply filter_sublist. }
  exists q. split_and!; try done.
  - intros Ht. unfold tracks_query, latest in Htr. rewrite Ht in Htr.
    by apply (fetched_for_unique (resource s) _ _ (store s)).
  - exact (sublist_NoDup _ _ ids_distinct (fmap_sublist id _ _ Hsub)).
Qed.

Lemma screen_shows_the_committed_query_witness :
  ∃ q, fetched_for
         (resource (state_after [Typed (lit "Knife"); Commit; TimerFires 1;
                                 JobRuns; CatchUp; Render] mount))
         q
         (store (state_after [Typed (lit "Knife"); Commit; TimerFires 1;
                              JobRuns; CatchUp; Render] mount)) ∧
       filtered ALL_PRODUCTS (lit "knife")
         = visible (filtered ALL_PRODUCTS q) (lit "Knife") ∧
       (transition (state_after [Typed (lit "Knife"); Commit; TimerFires 1;
                                 JobRuns; CatchUp; Render] mount) = None →
        q = normalize (query (state_after [Typed (lit "Knife"); Commit;
                                TimerFires 1; JobRuns; CatchUp; Render] mount))) ∧
       sublist (filtered ALL_PRODUCTS (lit "knife")) ALL_PRODUCTS ∧
       NoDup (id <$> filtered ALL_PRODUCTS (lit "knife")).
Proof.
  apply (screen_shows_the_committed_query
           (state_after [Typed (lit "Knife"); Commit; TimerFires 1; JobRuns;
                         CatchUp; Render] mount)
           (filtered ALL_PRODUCTS (lit "knife")) (lit "Knife")).
  - exists [Typed (lit "Knife"); Commit; TimerFires 1; JobRuns; CatchUp; Render].
    vm_compute. reflexivity.
  - vm_compute. reflexivity.
Defined.

(** X9. From every state the application reaches it can settle on the text
    of the input: there is a continuation (the pending transition is
    committed, the timer of the latest fetch fires, its callback runs, the
    deferred value catches up, React renders) after which the query is
    unchanged, no transition is pending, and the region shows the catalog
    filtered for that query by both filters. *)
Theorem application_can_settle_on_the_query s :
  app_reachable s →
  ∃ l s', app_run l s = Some s' ∧ query s' = query s ∧ transition s' = None ∧
          deferredQuery s' = query s ∧
          panel s' = Grid (visible (filtered ALL_PRODUCTS (normalize (query s)))
                                   (query s)) (query s).
Proof.
  intros Hreach. destruct (app_reachable_facts s Hreach) as (Hinv & Hshow & Htr).
  (* the pending transition, if any, is committed *)
  assert (∃ l1 s1, app_run l1 s = Some s1 ∧ query s1 = query s ∧
                   transition s1 = None) as (l1 & s1 & H1 & Hq1 & Ht1).
  { destruct (transition s) as [r0|] eqn:Ht.
    - assert (Hm : mounted s = true).
      { unfold mounted. destruct Hshow as [_ [-> | (? & ? & ? & _ & _ & _ & ->)]]; done. }
      exists [Commit]. cbn [app_run app_step]. rewrite Hm. unfold commit. rewrite Ht.
      eexists. split; [done|].
      match goal with
      | |- context [render ?x] => destruct (render_fields x) as (_ & E2 & _ & E4 & _)
      end.
      by rewrite E2, E4.
    - exists [], s. done. }
  assert (Hinv1 := app_run_inv l1 s s1 H1 Hinv).
  assert (Htr1 := app_run_tracks l1 s s1 H1 Hinv Htr).
  (* the fetch of the committed resource runs to completion *)
  destruct (resource_completes s1 (resource s1) Hinv1 (a_resource s1 Hinv1))
    as (l2 & σ2 & R & found & H2 & ER & Hst & Hres).
  set (s2 := with_store σ2 s1) in *.
  assert (Hinv2 := app_run_inv l2 s1 s2 H2 Hinv1).
  assert (Htr2 := app_run_tracks l2 s1 s2 H2 Hinv1 Htr1).
  assert (Hshow2 : shows_committed s2).
  { apply (app_run_shows l2 s1 s2 H2 Hinv1).
    apply (app_run_shows l1 s s1 H1 Hinv Hshow). }
  destruct (success_result s2 (resource s1) R Hinv2 ER Hst) as (q & Hq & Hfound).
  assert (q = normalize (query s)) as ->.
  { unfold tracks_query, latest in Htr2. cbn [with_store s2 transition resource
      query store] in Htr2. rewrite Ht1, Hq1 in Htr2. cbn in Htr2.
    by apply (fetched_for_unique (resource s1) _ _ σ2). }
  (* the deferred value catches up and React renders *)
  assert (Hm2 : mounted s2 = true).
  { unfold mounted. destruct Hshow2 as [_ [-> | (? & ? & ? & _ & _ & _ & ->)]]; done. }
  exists (l1 ++ l2 ++ [CatchUp; Render]), (render (catch_up s2)).
  rewrite app_run_app, H1, app_run_app, H2. cbn [app_run app_step]. rewrite Hm2.
  assert (Hm3 : mounted (catch_up s2) = true) by exact Hm2. rewrite Hm3.
  split; [done|].
  destruct (render_fields (catch_up s2))
    as (E1 & E2 & E3 & E4 & E5 & [(_ & _ & _ & Hno) | (data & Hd & Hp & _)]).
  - unfold read in Hno. cbn in Hno. by rewrite ER in Hno.
  - rewrite E2, E4, E5. cbn [catch_up s2 with_store query transition deferredQuery].
    split_and!; try done. rewrite Hp.
    unfold read in Hd. cbn [catch_up s2 with_store store resource] in Hd.
    rewrite ER in Hd. injection Hd as <-. rewrite Hst, Hfound.
    destruct Hshow2 as [Hb _].
    change (boundary (catch_up s2)) with (boundary s2). rewrite Hb.
    change (deferredQuery (catch_up s2)) with (query s1). rewrite Hq1.
    reflexivity.
Qed.

Lemma application_can_settle_on_the_query_witness :
  ∃ l s', app_run l (state_after [Typed (lit "Knife")] mount) = Some s' ∧
          query s' = query (state_after [Typed (lit "Knife")] mount) ∧
          transition s' = None ∧
          deferredQuery s' = query (state_after [Typed (lit "Knife")] mount) ∧
          panel s' =
            Grid (visible (filtered ALL_PRODUCTS
                             (normalize (query (state_after [Typed (lit "Knife")] mount))))
                          (query (state_after [Typed (lit "Knife")] mount)))
                 (query (state_after [Typed (lit "Knife")] mount)).
Proof.
  apply (application_can_settle_on_the_query (state_after [Typed (lit "Knife")] mount)).
  exists [Typed (lit "Knife")]. vm_compute. reflexivity.
Defined.

(** X10. Once the boundary holds an error, committing a resource that has
    succeeded does not bring the cards back: a render shows the fallback
    again and does not call [read()].  After "Try again" the same render
    reads the resource and shows its cards. *)
Theorem recovery_needs_retry s R found :
  truthy (boundary s) = true →
  resources (store s) !! resource s = Some R →
  status R = success → result R = VProducts found →
  (panel (render s) = ErrorPanel (boundary s) ∧
   boundary (render s) = boundary s ∧ reads (render s) = reads s) ∧
  (panel (render (retry s)) = Grid (visible found (deferredQuery s)) (deferredQuery s) ∧
   boundary (render (retry s)) = VNull ∧
   reads (render (retry s)) = reads s ++ [resource s]).
Proof.
  intros Hb ER Hst Hres.
  assert (Hread : read (resource s) (store s) = Some (Return (VProducts found))).
  { unfold read. by rewrite ER, Hst, Hres. }
  split; [by apply (fallback_stays_until_retry s _ Hb Hread)|].
  unfold render, render_with, retry.
  cbn [store resource boundary deferredQuery query transition panel reads].
  rewrite Hread. done.
Qed.

Lemma recovery_needs_retry_witness :
  (panel (render (mkApp knife_store [] 0 None (VError (lit "offline")) (lit "e 3")
            (ErrorPanel (VError (lit "offline"))) []))
     = ErrorPanel (VError (lit "offline")) ∧
   boundary (render (mkApp knife_store [] 0 None (VError (lit "offline")) (lit "e 3")
            (ErrorPanel (VError (lit "offline"))) []))
     = VError (lit "offline") ∧
   reads (render (mkApp knife_store [] 0 None (VError (lit "offline")) (lit "e 3")
            (ErrorPanel (VError (lit "offline"))) [])) = []) ∧
  (panel (render (retry (mkApp knife_store [] 0 None (VError (lit "offline"))
            (lit "e 3") (ErrorPanel (VError (lit "offline"))) [])))
     = Grid (visible (filtered ALL_PRODUCTS (lit "knife")) (lit "e 3")) (lit "e 3") ∧
   boundary (render (retry (mkApp knife_store [] 0 None (VError (lit "offline"))
            (lit "e 3") (ErrorPanel (VError (lit "offline"))) []))) = VNull ∧
   reads (render (retry (mkApp knife_store [] 0 None (VError (lit "offline"))
            (lit "e 3") (ErrorPanel (VError (lit "offline"))) []))) = [] ++ [0]).
Proof.
  exact (recovery_needs_retry
           (mkApp knife_store [] 0 None (VError (lit "offline")) (lit "e 3")
                  (ErrorPanel (VError (lit "offline"))) [])
           (mkResource success (VProducts (filtered ALL_PRODUCTS (lit "knife"))) 1 0)
           (filtered ALL_PRODUCTS (lit "knife"))
           eq_refl eq_refl eq_refl eq_refl).
Defined.

(** X11. When the committed resource has failed and the boundary holds no
    error, what a render shows depends on the reason alone: a promise is
    taken by [Suspense] for a suspension (nine placeholders, boundary
    untouched), a truthy reason is captured and shown with "Try again", and a
    falsy one ([null], [undefined], [0], the empty string, [false]) is
    captured but fails [if (this.state.error)], so the tree is lost: after
    that no typing, render or "Try again" is possible. *)
Theorem failed_resource_is_classified_by_reason s R :
  truthy (boundary s) = false →
  resources (store s) !! resource s = Some R → status R = error →
  panel (render s) = classified (result R) ∧
  boundary (render s) = (if is_promise (result R) then boundary s else result R) ∧
  reads (render s) = reads s ++ [resource s] ∧
  (truthy (result R) = false →
   ∀ e s', app_step e (render s) = Some s' → (∃ t, e = TimerFires t) ∨ e = JobRuns).
Proof.
  intros Hb ER Hst.
  assert (Hread : read (resource s) (store s) = Some (Throw (result R))).
  { unfold read. by rewrite ER, Hst. }
  assert (Hp : panel (render s) = classified (result R) ∧
               boundary (render s) = (if is_promise (result R) then boundary s else result R) ∧
               reads (render s) = reads s ++ [resource s]).
  { unfold render, render_with, classified. rewrite Hread, Hb.
    unfold ProductsPanel, Suspense, ErrorBoundary. rewrite Hb.
    destruct (result R) as [| |[]|z|[|c t]|t|l|p]; cbn [is_promise truthy];
      try destruct (z =? 0)%Z; done. }
  destruct Hp as (Hp & Hbd & Hrd). split_and!; try done.
  intros Hf e s' Hstep.
  assert (Hm : mounted (render s) = false).
  { unfold mounted. rewrite Hp. unfold classified. rewrite Hf.
    by destruct (result R). }
  destruct e; cbn [app_step] in Hstep; rewrite ?Hm in Hstep; try done.
  - left. by eexists.
  - by right.
Qed.

Lemma failed_resource_is_classified_by_reason_witness :
  panel (render (retry failed_app)) = classified (VError (lit "offline")) ∧
  boundary (render (retry failed_app)) =
    (if is_promise (VError (lit "offline")) then boundary (retry failed_app)
     else VError (lit "offline")) ∧
  reads (render (retry failed_app)) = reads (retry failed_app) ++ [0] ∧
  (truthy (VError (lit "offline")) = false →
   ∀ e s', app_step e (render (retry failed_app)) = Some s' →
           (∃ t, e = TimerFires t) ∨ e = JobRuns).
Proof.
  apply (failed_resource_is_classified_by_reason (retry failed_app)
           (mkResource error (VError (lit "offline")) 1 0));
    reflexivity.
Defined.

(** ** The latency: [randomDelay] *)

Section NumberFacts.

Import Number.

Open Scope Z_scope.

Lemma iter_pos_nat {A} (f : A → A) p x :
  SpecFloat.iter_pos f p x = Nat.iter (Pos.to_nat p) f x.
Proof.
  revert x. induction p as [p IH|p IH|]; intros x; cbn [SpecFloat.iter_pos].
  - rewrite !IH, Pos2Nat.inj_xI, <- Nat.iter_succ_r.
    rewrite <- Nat.iter_add. f_equal. lia.
  - rewrite !IH, Pos2Nat.inj_xO, <- Nat.iter_add. f_equal. lia.
  - done.
Qed.

Lemma shr_1_spec mrs :
  0 ≤ shr_m mrs →
  shr_m (shr_1 mrs) = shr_m mrs / 2 ∧ shr_r (shr_1 mrs) = Z.odd (shr_m mrs).
Proof.
  destruct mrs as [[|[p|p|]|p] r s]; cbn [shr_m shr_1 shr_r]; intros H;
    try lia; split; try done.
  - rewrite Pos2Z.inj_xI. apply Z.div_unique with 1; lia.
  - rewrite Pos2Z.inj_xO. apply Z.div_unique with 0; lia.
Qed.

Lemma shr_iter k mrs :
  0 ≤ shr_m mrs →
  shr_m (Nat.iter k shr_1 mrs) = shr_m mrs / 2 ^ Z.of_nat k ∧
  (0 < Z.of_nat k →
   shr_r (Nat.iter k shr_1 mrs) = Z.odd (shr_m mrs / 2 ^ (Z.of_nat k - 1))).
Proof.
  intros Hm. induction k as [|k [IH1 IH2]].
  - cbn [Nat.iter]. split; [by rewrite Z.div_1_r | lia].
  - cbn [Nat.iter Nat.iter nat_rect].
    assert (H0 : 0 ≤ shr_m (Nat.iter k shr_1 mrs)).
    { rewrite IH1. apply Z.div_pos; [done|]. apply Z.pow_pos_nonneg; lia. }
    destruct (shr_1_spec _ H0) as [E1 E2].
    change (nat_rect _ mrs (λ _, shr_1) k) with (Nat.iter k shr_1 mrs).
    rewrite E1, E2, IH1. split.
    + rewrite Z.div_div by (try apply Z.pow_pos_nonneg; lia).
      f_equal. rewrite Nat2Z.inj_succ, Z.pow_succ_r; lia.
    + intros _. by replace (Z.of_nat (S k) - 1) with (Z.of_nat k) by lia.
Qed.

(** Shifting a mantissa right by [n] and rounding to nearest, ties to even. *)
Lemma shr_round m e n :
  0 ≤ m →
  ∃ mrs, shr (Build_shr_record m false false) e n = (mrs, e + Z.max n 0) ∧
    shr_m mrs = m / 2 ^ Z.max n 0 ∧
    0 ≤ round_nearest_even (shr_m mrs) (loc_of_shr_record mrs) ∧
    (n ≤ 0 → round_nearest_even (shr_m mrs) (loc_of_shr_record mrs) = m) ∧
    (0 < n →
     round_nearest_even (shr_m mrs) (loc_of_shr_record mrs) * 2 ^ n ≤ m + 2 ^ (n - 1)).
Proof.
  intros Hm. destruct n as [|p|p].
  - exists (Build_shr_record m false false). cbn [shr shr_m loc_of_shr_record
      round_nearest_even Z.max Z.compare]. rewrite Z.add_0_r, Z.div_1_r.
    split_and!; try done; lia.
  - exists (SpecFloat.iter_pos shr_1 p (Build_shr_record m false false)).
    cbn [shr]. rewrite Z.max_l by lia. split; [done|].
    rewrite iter_pos_nat.
    destruct (shr_iter (Pos.to_nat p) (Build_shr_record m false false) Hm)
      as [E1 E2].
    rewrite positive_nat_Z in E1, E2. cbn [shr_m] in E1, E2.
    specialize (E2 ltac:(lia)).
    set (mrs := Nat.iter _ _ _) in *.
    assert (Hpow : 0 < 2 ^ (Z.pos p - 1)) by (apply Z.pow_pos_nonneg; lia).
    assert (Hsplit : 2 ^ Z.pos p = 2 * 2 ^ (Z.pos p - 1)).
    { rewrite <- Z.pow_succ_r by lia. f_equal. lia. }
    assert (H0 : 0 ≤ shr_m mrs).
    { rewrite E1. apply Z.div_pos; lia. }
    assert (Hdd : m / 2 ^ Z.pos p = m / 2 ^ (Z.pos p - 1) / 2).
    { rewrite Z.div_div by lia. f_equal. lia. }
    assert (Hr : round_nearest_even (shr_m mrs) (loc_of_shr_record mrs)
                 ≤ shr_m mrs + (if shr_r mrs then 1 else 0) ∧
                 shr_m mrs ≤ round_nearest_even (shr_m mrs) (loc_of_shr_record mrs)).
    { destruct mrs as [mm [] []]; cbn [shr_m shr_r loc_of_shr_record
        round_nearest_even]; try destruct (Z.even mm); lia. }
    split_and!; [done | lia | lia |]. intros _.
    pose proof (Z.div_mod m (2 ^ (Z.pos p - 1)) ltac:(lia)) as Hdm.
    pose proof (Z.mod_pos_bound m (2 ^ (Z.pos p - 1)) Hpow) as Hmb.
    set (a := m / 2 ^ (Z.pos p - 1)) in *.
    pose proof (Z.div_mod a 2 ltac:(lia)) as Ha.
    pose proof (Z.mod_pos_bound a 2 ltac:(lia)) as Hab.
    rewrite Hdd in E1.
    rewrite Hsplit. set (P := 2 ^ (Z.pos p - 1)) in *.
    set (q := a / 2) in *.
    set (x := round_nearest_even _ _) in *.
    destruct (shr_r mrs) eqn:Er.
    + symmetry in E2. rewrite Zodd_mod in E2. apply Z.eqb_eq in E2.
      assert (x * (2 * P) ≤ (q + 1) * (2 * P)) by (apply Z.mul_le_mono_nonneg_r; lia).
      nia.
    + assert (x * (2 * P) ≤ q * (2 * P)) by (apply Z.mul_le_mono_nonneg_r; lia).
      nia.
  - exists (Build_shr_record m false false). cbn [shr shr_m loc_of_shr_record
      round_nearest_even]. rewrite Z.max_r by lia. rewrite Z.add_0_r, Z.div_1_r.
    split_and!; try done; lia.
Qed.
Lemma digits2_bounds p :
  2 ^ (Z.pos (digits2_pos p) - 1) ≤ Z.pos p < 2 ^ Z.pos (digits2_pos p).
Proof.
  induction p as [p IH|p IH|]; cbn [digits2_pos]; [| |done];
    rewrite Pos2Z.inj_succ;
    replace (Z.succ (Z.pos (digits2_pos p)) - 1)
      with (Z.succ (Z.pos (digits2_pos p) - 1)) by lia;
    rewrite !Z.pow_succ_r by lia; lia.
Qed.

Lemma Zdigits2_le m k : 0 ≤ m → 0 ≤ k → m < 2 ^ k → Zdigits2 m ≤ k.
Proof.
  intros Hm Hk Hlt. destruct m as [|p|p]; cbn [Zdigits2]; [done| |lia].
  destruct (digits2_bounds p) as [Hlo _].
  apply Z.nlt_ge. intros Hgt.
  assert (2 ^ k ≤ 2 ^ (Z.pos (digits2_pos p) - 1)); [|lia].
  apply Z.pow_le_mono_r; lia.
Qed.

Lemma fexp_unfold x : fexp prec emax x = Z.max (x - 53) (-1074).
Proof. reflexivity. Qed.

(** The product of a Number below one and [851] is a Number below [851]:
    rounding to nearest cannot reach [851], because the largest Number
    below one is farther from one than half a unit in the last place of
    the product. *)
Lemma mul_below m e :
  -1074 ≤ e ≤ -53 → Z.pos m < 2 ^ 53 →
  mul (S754_finite false m e) (S754_finite false span (-43)) = S754_zero false ∨
  ∃ m' e', mul (S754_finite false m e) (S754_finite false span (-43))
             = S754_finite false m' e' ∧
           e' ≤ -43 ∧ Z.pos m' < 851 * 2 ^ (- e').
Proof.
  intros He Hm.
  remember (mul (S754_finite false m e) (S754_finite false span (-43))) as x eqn:Ex.
  unfold mul, SFmul, binary_round_aux, shr_fexp in Ex.
  cbn [xorb shr_record_of_loc] in Ex. rewrite fexp_unfold, Pos2Z.inj_mul in Ex.
  set (M := Z.pos m * Z.pos span). set (E := e + -43).
  assert (HM0 : 0 < M) by (unfold M; lia).
  assert (Hpow : 2 ^ 53 ≤ 2 ^ (- e)) by (apply Z.pow_le_mono_r; lia).
  assert (Hspan : Z.pos span = 851 * 2 ^ 43) by reflexivity.
  (* the exact product is below 851 by at least 851 units of [2^E] *)
  assert (HMhi : M + Z.pos span ≤ Z.pos span * 2 ^ (- e)) by (unfold M; nia).
  assert (HE : 851 * 2 ^ (- E) = Z.pos span * 2 ^ (- e)).
  { unfold E. replace (- (e + -43)) with (43 + - e) by lia.
    rewrite Z.pow_add_r by lia. lia. }
  assert (Hd : Zdigits2 M + E ≤ 10 ∧ Zdigits2 M ≤ 106).
  { split.
    - assert (Zdigits2 M ≤ 10 - E); [|lia].
      apply Zdigits2_le; [lia | unfold E; lia |].
      replace (10 - E) with (10 + - E) by lia. rewrite Z.pow_add_r by (unfold E; lia).
      change (2 ^ 10) with 1024. lia.
    - apply Zdigits2_le; [lia | lia |].
      change 106 with (53 + 53). rewrite Z.pow_add_r by lia.
      unfold M. assert (Z.pos span < 2 ^ 53) by (by vm_compute). nia. }
  set (n := Z.max (Zdigits2 M + E - 53) (-1074) - E).
  destruct (shr_round M E n ltac:(lia)) as (mrs & E1 & Em & H0 & Hle & Hgt).
  fold M E n in Ex. rewrite E1 in Ex. cbv beta iota zeta in Ex.
  rewrite fexp_unfold in Ex.
  set (m1 := round_nearest_even (shr_m mrs) (loc_of_shr_record mrs)) in *.
  set (e1 := E + Z.max n 0).
  assert (He1 : -1074 ≤ e1 ≤ -43) by (unfold e1, n, E in *; lia).
  assert (Hm1 : m1 < 851 * 2 ^ (- e1)).
  { destruct (Z.le_gt_cases n 0) as [Hn | Hn].
    - rewrite (Hle Hn). unfold e1. rewrite Z.max_r by lia. rewrite Z.add_0_r, HE. lia.
    - specialize (Hgt Hn). unfold e1. rewrite Z.max_l by lia.
      assert (Hn53 : n ≤ 53) by (unfold n, E in *; lia).
      assert (2 ^ (n - 1) ≤ 2 ^ 52) by (apply Z.pow_le_mono_r; lia).
      assert (2 ^ 52 < Z.pos span) by (by vm_compute).
      assert (Hs : 851 * 2 ^ (- E) = 851 * 2 ^ (- (E + n)) * 2 ^ n).
      { rewrite <- Z.mul_assoc, <- Z.pow_add_r by (unfold n, E in *; lia).
        do 2 f_equal. lia. }
      assert (0 < 2 ^ n) by (apply Z.pow_pos_nonneg; lia).
      apply (Z.mul_lt_mono_pos_r (2 ^ n)); [done|]. lia. }
  set (n2 := Z.max (Zdigits2 m1 + e1 - 53) (-1074) - e1).
  destruct (shr_round m1 e1 n2 H0) as (mrs2 & E2 & Em2 & _).
  fold e1 n2 in Ex. rewrite E2 in Ex. cbv beta iota zeta in Ex. rewrite Em2 in Ex.
  set (k := Z.max n2 0) in *.
  assert (Hk : 0 ≤ k) by (unfold k; lia).
  assert (Hpk : 0 < 2 ^ k) by (apply Z.pow_pos_nonneg; lia).
  assert (Hd1 : Zdigits2 m1 + e1 ≤ 10).
  { assert (Zdigits2 m1 ≤ 10 - e1); [|lia].
    apply Zdigits2_le; [lia | lia |].
    replace (10 - e1) with (10 + - e1) by lia. rewrite Z.pow_add_r by lia.
    change (2 ^ 10) with 1024. lia. }
  assert (He2 : e1 + k ≤ -43) by (unfold k, n2; lia).
  assert (Hq : m1 / 2 ^ k < 851 * 2 ^ (- (e1 + k))).
  { apply Z.div_lt_upper_bound; [done|].
    replace (2 ^ k * (851 * 2 ^ (- (e1 + k)))) with (851 * 2 ^ (- e1)); [done|].
    replace (- e1) with (k + - (e1 + k)) by lia.
    rewrite Z.pow_add_r by lia. lia. }
  assert (Hq0 : 0 ≤ m1 / 2 ^ k) by (apply Z.div_pos; lia).
  assert (Hfin : (e1 + k <=? emax - prec) = true)
    by (apply Z.leb_le; unfold emax, prec; lia).
  rewrite Hfin in Ex.
  destruct (m1 / 2 ^ k) as [|q|q] eqn:Eq; [by left | right | lia].
  by exists q, (e1 + k).
Qed.

(** [Math.floor] of a Number below [851] is an integer from [0] to [850]. *)
Lemma floor_below m e :
  e ≤ -43 → Z.pos m < 851 * 2 ^ (- e) →
  ∃ n, 0 ≤ n ≤ 850 ∧
       floor (S754_finite false m e) = integral false n.
Proof.
  intros He Hm. exists (Z.pos m / 2 ^ (- e)).
  assert (0 < 2 ^ (- e)) by (apply Z.pow_pos_nonneg; lia).
  split.
  - split; [apply Z.div_pos; lia|].
    assert (Z.pos m / 2 ^ (- e) < 851); [|lia].
    apply Z.div_lt_upper_bound; lia.
  - unfold floor. replace (0 <=? e) with false by (symmetry; apply Z.leb_gt; lia).
    cbn [cond_Zopp]. by rewrite Z.shiftr_div_pow2 by lia.
Qed.

(** Adding [350] to an integer from [0] to [850] is exact. *)
Lemma add_small n :
  0 ≤ n ≤ 850 →
  add (integral false n) (of_Z 350) = of_Z (n + 350).
Proof.
  intros Hn.
  assert (H : Forall (λ k : nat,
              add (integral false (Z.of_nat k)) (of_Z 350)
                = of_Z (Z.of_nat k + 350)) (seq 0 851)).
  { apply (bool_decide_unpack _). by vm_compute. }
  rewrite Forall_forall in H.
  specialize (H (Z.to_nat n)). rewrite Z2Nat.id in H by lia.
  apply H. apply elem_of_seq. lia.
Qed.

Lemma unit_interval_finite m e :
  unit_interval (S754_finite false m e) = true →
  -1074 ≤ e ≤ -53 ∧ Z.pos m < 2 ^ 53.
Proof.
  unfold unit_interval, bounded, canonical_mantissa.
  rewrite !andb_true_iff, fexp_unfold, Z.eqb_eq, Z.leb_le.
  intros [[Hc _] Hlt].
  destruct (digits2_bounds m) as [Hlo Hhi].
  set (d := Z.pos (digits2_pos m)) in *.
  assert (Hd : d ≤ 53) by lia.
  assert (2 ^ d ≤ 2 ^ 53) by (apply Z.pow_le_mono_r; lia).
  split; [|lia]. split; [lia|].
  change (of_Z 1) with (S754_finite false 4503599627370496 (-52)) in Hlt.
  unfold SFltb, SFcompare in Hlt.
  destruct (e ?= -52) eqn:Ec.
  - apply Z.compare_eq in Ec. exfalso.
    assert (Hd53 : d = 53) by (clear - Hc Ec; lia).
    destruct (Pos.compare_cont Eq m 4503599627370496%positive) eqn:Em;
      try discriminate Hlt.
    apply (proj1 (Pos.compare_lt_iff m 4503599627370496%positive)) in Em.
    assert (Hp : 2 ^ (d - 1) = 4503599627370496) by (rewrite Hd53; by vm_compute).
    rewrite Hp in Hlo. apply Pos2Z.pos_lt_pos in Em. clear - Hlo Em. lia.
  - change (e < -52) in Ec. clear - Ec. lia.
  - discriminate Hlt.
Qed.

End NumberFacts.

(** X12. Whatever [Math.random()] returns, [randomDelay()] with its default
    bounds is an integer from 350 to 1200: the product with 851, rounded to
    nearest, stays below 851, so [Math.floor] gives at most 850. *)
Theorem randomDelay_within_bounds u :
  Number.unit_interval u = true →
  ∃ d : Z, randomDelay u (Number.of_Z 350) (Number.of_Z 1200) = Number.of_Z d ∧
           (350 ≤ d ≤ 1200)%Z.
Proof.
  intros Hu. unfold randomDelay.
  change (Number.add (Number.sub (Number.of_Z 1200) (Number.of_Z 350)) (Number.of_Z 1))
    with (S754_finite false span (-43)).
  destruct u as [[]| | |[] m e]; try done.
  - exists 350%Z. split; [by vm_compute | lia].
  - destruct (unit_interval_finite m e Hu) as [He Hm].
    destruct (mul_below m e He Hm) as [-> | (m' & e' & -> & He' & Hm')].
    + exists 350%Z. split; [by vm_compute | lia].
    + destruct (floor_below m' e' He' Hm') as (n & Hn & ->).
      exists (n + 350)%Z. split; [by apply add_small | lia].
Qed.

Lemma randomDelay_within_bounds_witness :
  ∃ d : Z, randomDelay (S754_finite false 9007199254740991 (-53))
             (Number.of_Z 350) (Number.of_Z 1200) = Number.of_Z d ∧
           (350 ≤ d ≤ 1200)%Z.
Proof.
  apply (randomDelay_within_bounds (S754_finite false 9007199254740991 (-53))).
  vm_compute. reflexivity.
Defined.

(** X13. Both bounds are inclusive and nothing between them is left out:
    for every integer from 350 to 1200 there is a Number that
    [Math.random()] may return for which [randomDelay()] is that integer. *)
Theorem every_delay_can_occur d :
  (350 ≤ d ≤ 1200)%Z →
  ∃ u, Number.unit_interval u = true ∧
       randomDelay u (Number.of_Z 350) (Number.of_Z 1200) = Number.of_Z d.
Proof.
  intros Hd.
  assert (H : Forall (λ k : nat,
              Number.unit_interval (midpoint (Z.of_nat k)) = true ∧
              randomDelay (midpoint (Z.of_nat k)) (Number.of_Z 350) (Number.of_Z 1200)
                = Number.of_Z (Z.of_nat k + 350)) (seq 0 851)).
  { apply (bool_decide_unpack _). by vm_compute. }
  rewrite Forall_forall in H.
  specialize (H (Z.to_nat (d - 350))). rewrite Z2Nat.id in H by lia.
  replace (d - 350 + 350)%Z with d in H by lia.
  exists (midpoint (d - 350)). apply H. apply elem_of_seq. lia.
Qed.

Lemma every_delay_can_occur_witness :
  ∃ u, Number.unit_interval u = true ∧
       randomDelay u (Number.of_Z 350) (Number.of_Z 1200) = Number.of_Z 1200.
Proof. apply (every_delay_can_occur 1200). lia. Defined.

(** ** Sample runs *)

Example product_2 :
  product_at 2 = {| id := lit "3"; title := lit "Chef Knife 3";
                    brand := lit "Caesarstone"; price := 133 |}.
Proof. reflexivity. Qed.

Example mount_shows_skeleton :
  panel mount = Skeleton 9 ∧ reads mount = [0] ∧ resource mount = 0.
Proof. vm_compute. auto. Qed.

Example typing_knife_shows_knives :
  panel (state_after [Typed (lit "Knife"); Commit; TimerFires 1; JobRuns;
                      CatchUp; Render] mount)
  = Grid (filtered ALL_PRODUCTS (lit "knife")) (lit "Knife").
Proof. vm_compute. reflexivity. Qed.

Example stale_result_is_not_shown :
  panel typed_a_later = Skeleton 9 ∧
  (status <$> resources (store typed_a_later) !! 0) = Some success ∧
  resource typed_a_later = 1.
Proof. vm_compute. auto. Qed.

Example falsy_reason_unmounts :
  snd (ErrorBoundary VNull (Suspense (ProductsPanel (Throw (VNumber 0)) []))) =
  Unmounted (VNumber 0).
Proof. reflexivity. Qed.
